(** * ReserveSection: the whitelist reservation component

    A shallow embedding of [src/components/sections/ReserveSection.tsx].
    The component keeps five pieces of React state, loads the whitelist
    once on mount, and offers one handler, [handleReserve], that pays a
    down payment through the wallet SDK and records the reservation.

    Conventions of the embedding:
    - JavaScript numbers that the component handles are integer tallies
      (the quantity comes out of a select of 1..10, counts are sums of
      such quantities); they are modelled in [Z].
    - [string | null] is [option string]; JavaScript truthiness of such a
      value is written out ([truthy]).
    - The handler is an [async] function whose [await]s run in program
      order.  It is modelled as a computation that records every
      observable effect (alerts, SDK calls, state setters) in a trace and
      ends in a completion (fall through, [return], or a thrown error).
      The answers of the SDKs are taken from a [World].
    - A handler reads the state of the render that created it (its
      closure) and writes through the setters; committing a trace to a
      state applies the setters in order. *)

From Stdlib Require Import ZArith String Ascii List Lia.
From Stdlib Require Import DecimalString.
From stdpp Require Import base list strings.
Import ListNotations.

Local Open Scope Z_scope.
Local Open Scope string_scope.
Local Open Scope list_scope.

(** ** Data model *)

(** [{ address: string; count: number }] *)
Record Entry : Type := mkEntry { address : string; count : Z }.

(** [ReserveSectionProps] *)
Record Props : Type := mkProps {
  id : string;
  walletAddress : option string;
  recipientAddress : string;
  userQualifies : bool
}.

(** The five [useState] cells of the component. *)
Record State : Type := mkState {
  selectedCount : Z;
  whitelist : list Entry;
  totalReserved : Z;
  loading : bool;
  expanded : bool
}.

(** [useState] initial values (lines 20-24). *)
Definition initialState : State :=
  {| selectedCount := 1; whitelist := []; totalReserved := 0;
     loading := false; expanded := false |}.

(** What the handler reads off a thrown value: [error.code],
    [error.reason], [error.message]. A field that is absent is [None].
    The record stands for every thrown value on which these three can be
    read, that is every value but [null] and [undefined]; for those two,
    reading [error.code] at line 90 throws itself, and they are not
    modelled. *)
Record JsError : Type := mkJsError {
  code : option string;
  reason : option string;
  message : option string
}.

(** A promise (or a call that may throw) settles one way or the other. *)
Inductive Outcome (A : Type) : Type :=
| Resolved (a : A)
| Rejected (e : JsError).
Arguments Resolved {A} a.
Arguments Rejected {A} e.

(** The collaborators of the component: the wallet/chain client, the
    chain-switch helper and the remote store. Calls that take arguments
    answer as a function of them. *)
Record World : Type := mkWorld {
  newBrowserProvider : Outcome unit;
  getSigner : Outcome unit;
  getNetwork : Outcome Z;
  switchToApeChain : Outcome unit;
  sendTransaction : string -> Z -> Outcome unit;
  txWait : Outcome unit;
  updateWhitelist : string -> Z -> Outcome unit
}.

(** Everything the component does that can be observed from outside or
    changes its state. [SetTotalReservedPlus q] is the functional update
    [setTotalReserved((prevTotal) => prevTotal + q)]. *)
Inductive Effect : Type :=
| Alert (msg : string)
| ConsoleError (label : string) (e : JsError)
| SetSelectedCount (v : Z)
| SetWhitelist (l : list Entry)
| SetTotalReserved (v : Z)
| SetTotalReservedPlus (q : Z)
| SetLoading (b : bool)
| ToggleExpanded
| FetchWhitelist
| NewBrowserProvider
| GetSigner
| GetNetwork
| SwitchToApeChain
| SendTransaction (to : string) (value : Z)
| TxWait
| UpdateWhitelist (addr : string) (cnt : Z).

(** ** Setters *)

Definition apply_effect (s : State) (ef : Effect) : State :=
  match ef with
  | SetSelectedCount v =>
      {| selectedCount := v; whitelist := whitelist s;
         totalReserved := totalReserved s; loading := loading s;
         expanded := expanded s |}
  | SetWhitelist l =>
      {| selectedCount := selectedCount s; whitelist := l;
         totalReserved := totalReserved s; loading := loading s;
         expanded := expanded s |}
  | SetTotalReserved v =>
      {| selectedCount := selectedCount s; whitelist := whitelist s;
         totalReserved := v; loading := loading s;
         expanded := expanded s |}
  | SetTotalReservedPlus q =>
      {| selectedCount := selectedCount s; whitelist := whitelist s;
         totalReserved := totalReserved s + q; loading := loading s;
         expanded := expanded s |}
  | SetLoading b =>
      {| selectedCount := selectedCount s; whitelist := whitelist s;
         totalReserved := totalReserved s; loading := b;
         expanded := expanded s |}
  | ToggleExpanded =>
      {| selectedCount := selectedCount s; whitelist := whitelist s;
         totalReserved := totalReserved s; loading := loading s;
         expanded := negb (expanded s) |}
  | _ => s
  end.

(** The state after a trace: its setters applied in order. *)
Definition commit (s : State) (t : list Effect) : State :=
  fold_left apply_effect t s.

(** ** Control flow of an async function body *)

Inductive Completion (A : Type) : Type :=
| Normal (a : A)
| Return
| Throw (e : JsError).
Arguments Normal {A} a.
Arguments Return {A}.
Arguments Throw {A} e.

Definition Proc (A : Type) : Type := (list Effect * Completion A)%type.

Definition trace {A} (m : Proc A) : list Effect := fst m.
Definition completion {A} (m : Proc A) : Completion A := snd m.

Definition ret {A} (a : A) : Proc A := ([], Normal a).

Definition bind {A B} (m : Proc A) (k : A -> Proc B) : Proc B :=
  match m with
  | (t, Normal a) => let (t', c) := k a in (t ++ t', c)
  | (t, Return) => (t, Return)
  | (t, Throw e) => (t, Throw e)
  end.

Declare Scope proc_scope.
Delimit Scope proc_scope with proc.
Notation "x <- m ;; k" := (bind m (fun x => k))
  (at level 90, m at level 89, k at level 90, right associativity)
  : proc_scope.
Notation "m ;;; k" := (bind m (fun _ => k))
  (at level 90, right associativity) : proc_scope.

(** A statement with an effect and no result. *)
Definition emit (ef : Effect) : Proc unit := ([ef], Normal tt).

(** A call into a collaborator: the call is made, then it settles. *)
Definition call {A} (ef : Effect) (o : Outcome A) : Proc A :=
  ([ef], match o with Resolved a => Normal a | Rejected e => Throw e end).

(** A pure call that may throw. *)
Definition lift {A} (o : Outcome A) : Proc A :=
  ([], match o with Resolved a => Normal a | Rejected e => Throw e end).

(** [return;] *)
Definition return_ {A} : Proc A := ([], Return).

(** [if (c) { body }] *)
Definition when (c : bool) (body : Proc unit) : Proc unit :=
  if c then body else ret tt.

(** [try { body } catch (error) { handler } finally { fin }]: the handler
    runs on a throw of the body, [fin] runs on every way out, and the
    statement completes as the try/catch part did unless [fin] itself
    completes abruptly. *)
Definition try_catch_finally
    (body : Proc unit) (handler : JsError -> Proc unit) (fin : Proc unit)
  : Proc unit :=
  let guarded :=
    match body with
    | (t, Throw e) => let (th, ch) := handler e in (t ++ th, ch)
    | other => other
    end in
  let (t1, c1) := guarded in
  let (tf, cf) := fin in
  (t1 ++ tf, match cf with Normal _ => c1 | _ => cf end).

(** [try { body } catch (error) { handler }] *)
Definition try_catch (body : Proc unit) (handler : JsError -> Proc unit)
  : Proc unit :=
  match body with
  | (t, Throw e) => let (th, ch) := handler e in (t ++ th, ch)
  | other => other
  end.

Local Open Scope proc_scope.

(** ** JavaScript values *)

(** Truthiness of a [string | null | undefined]. *)
Definition truthy (v : option string) : bool :=
  match v with
  | Some s => negb (String.eqb s "")
  | None => false
  end.

(** [a || b] where [b] is a string. *)
Definition js_or (a : option string) (b : string) : string :=
  if truthy a then default b a else b.

(** [n.toString()] for an integer-valued number (below 1e21 in absolute
    value, where JavaScript prints plain decimal digits). *)
Definition toString (n : Z) : string := NilZero.string_of_int (Z.to_int n).

(** ** ethers.parseEther

    The SDK function is not part of the repository. It is modelled after
    the library: [parseEther(s)] is [parseUnits(s, 18)], which accepts
    [-?[0-9]*\.?[0-9]*] with at least one digit, pads the fraction to the
    unit's decimals (excess digits must be zeros) and reads the digits as
    an integer; anything else throws. *)

Definition is_digit (c : ascii) : bool :=
  let n := nat_of_ascii c in (48 <=? n)%nat && (n <=? 57)%nat.

Definition digit_value (c : ascii) : Z := Z.of_nat (nat_of_ascii c) - 48.

Fixpoint all_digits (s : string) : bool :=
  match s with
  | EmptyString => true
  | String c r => is_digit c && all_digits r
  end.

Fixpoint all_zeros (s : string) : bool :=
  match s with
  | EmptyString => true
  | String c r => Ascii.eqb c "0" && all_zeros r
  end.

Fixpoint digits_to_Z (acc : Z) (s : string) : Z :=
  match s with
  | EmptyString => acc
  | String c r => digits_to_Z (10 * acc + digit_value c) r
  end.

Fixpoint split_at_dot (s : string) : string * string :=
  match s with
  | EmptyString => (EmptyString, EmptyString)
  | String c r =>
      if Ascii.eqb c "." then (EmptyString, r)
      else let (w, f) := split_at_dot r in (String c w, f)
  end.

Fixpoint pad_right (n : nat) (s : string) : string :=
  match n with
  | O => EmptyString
  | S n' =>
      match s with
      | EmptyString => String "0" (pad_right n' EmptyString)
      | String c r => String c (pad_right n' r)
      end
  end.

Fixpoint drop_chars (n : nat) (s : string) : string :=
  match n, s with
  | S n', String _ r => drop_chars n' r
  | _, _ => s
  end.

Definition invalid_argument : JsError :=
  {| code := Some "INVALID_ARGUMENT"; reason := None;
     message := Some "invalid FixedNumber string value" |}.

Definition numeric_fault : JsError :=
  {| code := Some "NUMERIC_FAULT"; reason := None;
     message := Some "too many decimals for format" |}.

Definition parseUnits (value : string) (decimals : nat) : Outcome Z :=
  let (neg, body) :=
    match value with
    | String c r => if Ascii.eqb c "-" then (true, r) else (false, value)
    | EmptyString => (false, value)
    end in
  let (whole, frac) := split_at_dot body in
  if all_digits whole && all_digits frac
     && (0 <? String.length whole + String.length frac)%nat
  then
    if all_zeros (drop_chars decimals frac) then
      let v := digits_to_Z 0 (whole ++ pad_right decimals frac)%string in
      Resolved (if neg : bool then - v else v)
    else Rejected numeric_fault
  else Rejected invalid_argument.

Definition parseEther (ether : string) : Outcome Z := parseUnits ether 18.

(** One ether in the smallest unit. *)
Definition ether : Z := 10 ^ 18.

(** ** loadWhitelist (lines 27-37) *)

(** [fetchedWhitelist.reduce((total, entry) => total + entry.count, 0)] *)
Definition sumCounts (l : list Entry) : Z :=
  fold_left (fun total entry => total + count entry) l 0.

Definition loadWhitelist (fetched : Outcome (list Entry)) : Proc unit :=
  try_catch
    (fetchedWhitelist <- call FetchWhitelist fetched ;;
     emit (SetWhitelist fetchedWhitelist) ;;;
     emit (SetTotalReserved (sumCounts fetchedWhitelist)))
    (fun error => emit (ConsoleError "Failed to load whitelist:" error)).

(** ** handleReserve (lines 41-108) *)

(** The required chain, [BigInt(33139)]. *)
Definition apeChainId : Z := 33139.

(** The campaign cap. *)
Definition cap : Z := 333.

(** Lines 71-79: the [map] that bumps the caller's entries, then the
    [push] of a fresh entry when [some] finds none. *)
Definition updatedWhitelist (wl : list Entry) (wallet : string) (q : Z)
  : list Entry :=
  let mapped :=
    map (fun entry =>
           if String.eqb (address entry) wallet
           then {| address := address entry; count := count entry + q |}
           else entry) wl in
  if negb (existsb (fun entry => String.eqb (address entry) wallet) wl)
  then mapped ++ [ {| address := wallet; count := q |} ]
  else mapped.

(** Lines 90-104: the alert shown for a caught error. *)
Definition errorAlert (error : JsError) : string :=
  if bool_decide (code error = Some "INSUFFICIENT_FUNDS") then
    "You do not have enough ETH to complete this reservation. Please check your balance and try again."
  else if bool_decide (code error = Some "CALL_EXCEPTION") then
    "Transaction failed. Please ensure you have enough funds."
  else
    js_or (reason error)
      (js_or (message error)
         "An unexpected error occurred. Please try again.").

(** The body of the [try] block (lines 49-86). *)
Definition reserveAttempt (p : Props) (s : State) (w : World) : Proc unit :=
  let wallet := default "" (walletAddress p) in
  call NewBrowserProvider (newBrowserProvider w) ;;;
  call GetSigner (getSigner w) ;;;
  chainId <- call GetNetwork (getNetwork w) ;;
  when (negb (chainId =? apeChainId)%Z)
    (call SwitchToApeChain (switchToApeChain w) ;;; return_) ;;;
  when (totalReserved s + selectedCount s >? cap)%Z
    (emit (Alert "Reservation limit reached. Please select fewer spots.") ;;;
     return_) ;;;
  amount <- lift (parseEther (toString (selectedCount s * 2))) ;;
  call (SendTransaction (recipientAddress p) amount)
       (sendTransaction w (recipientAddress p) amount) ;;;
  call TxWait (txWait w) ;;;
  emit (SetWhitelist (updatedWhitelist (whitelist s) wallet (selectedCount s))) ;;;
  emit (SetTotalReservedPlus (selectedCount s)) ;;;
  call (UpdateWhitelist wallet (selectedCount s))
       (updateWhitelist w wallet (selectedCount s)) ;;;
  emit (Alert "Reservation successful!").

Definition handleReserve (p : Props) (s : State) (w : World) : Proc unit :=
  if negb (truthy (walletAddress p)) then
    emit (Alert "Please connect your wallet to proceed.") ;;; return_
  else
    emit (SetLoading true) ;;;
    try_catch_finally
      (reserveAttempt p s w)
      (fun error =>
         emit (ConsoleError "Transaction failed:" error) ;;;
         emit (Alert (errorAlert error)))
      (emit (SetLoading false)).

(** ** Display controls (lines 111-113) *)

Definition toggleExpanded : Proc unit := emit ToggleExpanded.

(** [arr.slice(-n)]: the last [n] elements, the whole array when it has
    fewer. *)
Definition slice_last {A} (n : nat) (l : list A) : list A :=
  drop (length l - n)%nat l.

Definition displayedReservations (s : State) : list Entry :=
  if expanded s then whitelist s else slice_last 10 (whitelist s).

(** ** What is rendered (lines 138-200) *)

Record View : Type := mkView {
  totalAvailable : Z;
  selectValue : Z;
  selectOptions : list Z;
  selectDisabled : bool;
  payButtonDisabled : bool;
  payButtonLabel : string;
  reservationItems : list string;
  toggleButton : option string
}.

Definition reservationItem (entry : Entry) : string :=
  (address entry ++ " reserved " ++ toString (count entry) ++ " spots")%string.

Definition render (p : Props) (s : State) : View :=
  {| totalAvailable := cap - totalReserved s;
     selectValue := selectedCount s;
     selectOptions := map (fun i => Z.of_nat i + 1) (seq 0 10);
     selectDisabled := (totalReserved s >=? cap)%Z || negb (userQualifies p);
     payButtonDisabled := true;
     payButtonLabel :=
       if loading s then "Processing..."
       else if (totalReserved s >=? cap)%Z then "Full"
       else ("Pay " ++ toString (selectedCount s * 2) ++ "TBD ETH")%string;
     reservationItems :=
       if (0 <? length (displayedReservations s))%nat
       then map reservationItem (displayedReservations s)
       else ["No reservations yet."];
     toggleButton :=
       if (10 <? length (whitelist s))%nat
       then Some (if expanded s then "Show Less" else "Show All")
       else None |}.

(** ** The component as a transition system

    One event is handled to completion before the next (the handlers are
    modelled without overlap), so a handler's closure holds the current
    state. The quantity select offers 1..10. [step] and [reachable] thus
    describe the runs in which nothing settles during a call of the
    handler; a fetch that settles during a call is described separately,
    by [reserveAcrossFetch]. *)

Inductive Event : Type :=
| Mounted (fetched : Outcome (list Entry))
| Selected (v : Z)
| Toggled
| ReserveClicked (p : Props) (w : World).

Definition handle (s : State) (ev : Event) : Proc unit :=
  match ev with
  | Mounted fetched => loadWhitelist fetched
  | Selected v => emit (SetSelectedCount v)
  | Toggled => toggleExpanded
  | ReserveClicked p w => handleReserve p s w
  end.

Definition step (s : State) (ev : Event) : State :=
  commit s (trace (handle s ev)).

Definition well_formed (ev : Event) : Prop :=
  match ev with
  | Selected v => 1 <= v <= 10
  | _ => True
  end.

Inductive reachable : State -> Prop :=
| reach_init : reachable initialState
| reach_step s ev :
    reachable s -> well_formed ev -> reachable (step s ev).

(** ** Vocabulary of the properties *)

(** The addresses of a list of entries, in order. *)
Definition addresses (l : list Entry) : list string := map address l.

(** The entry of [wallet] after a reservation of [q] more spots. *)
Definition bump (wallet : string) (q : Z) (entry : Entry) : Entry :=
  if String.eqb (address entry) wallet
  then {| address := address entry; count := count entry + q |}
  else entry.

(** A wallet is connected: [walletAddress] is a non-empty string. *)
Definition Connected (p : Props) (wallet : string) : Prop :=
  walletAddress p = Some wallet /\ wallet <> "".

(** The provider answers and reports the required chain. *)
Definition OnApeChain (w : World) : Prop :=
  newBrowserProvider w = Resolved tt /\
  getSigner w = Resolved tt /\
  getNetwork w = Resolved apeChainId.

(** The transfer of [amount] was sent and confirmed on chain. *)
Definition PaymentConfirmed (p : Props) (s : State) (w : World) (amount : Z)
  : Prop :=
  parseEther (toString (selectedCount s * 2)) = Resolved amount /\
  sendTransaction w (recipientAddress p) amount = Resolved tt /\
  txWait w = Resolved tt.

(** The messages shown to the user, in order. *)
Definition alerts (t : list Effect) : list string :=
  omap (fun ef => match ef with Alert msg => Some msg | _ => None end) t.

(** The effects that change the reservation data, locally (the whitelist
    and the running total) or in the remote store. *)
Definition updates_reservations (ef : Effect) : bool :=
  match ef with
  | SetWhitelist _ | SetTotalReserved _ | SetTotalReservedPlus _
  | UpdateWhitelist _ _ => true
  | _ => false
  end.

(** What the handler leaves behind after the remote write was issued. *)
Definition afterPersist (o : Outcome unit) : list Effect :=
  match o with
  | Resolved _ => [Alert "Reservation successful!"]
  | Rejected e => [ConsoleError "Transaction failed:" e; Alert (errorAlert e)]
  end.

(** The three classes of error messages, as the specification words
    them: insufficient funds, call rejection, and a generic alert with
    the reason, else the message, else a fixed text. *)
Inductive surfaced_as (e : JsError) : string -> Prop :=
| surfaced_insufficient_funds :
    code e = Some "INSUFFICIENT_FUNDS" ->
    surfaced_as e
      "You do not have enough ETH to complete this reservation. Please check your balance and try again."
| surfaced_call_exception :
    code e = Some "CALL_EXCEPTION" ->
    surfaced_as e "Transaction failed. Please ensure you have enough funds."
| surfaced_reason r :
    code e <> Some "INSUFFICIENT_FUNDS" -> code e <> Some "CALL_EXCEPTION" ->
    reason e = Some r -> r <> "" ->
    surfaced_as e r
| surfaced_message m :
    code e <> Some "INSUFFICIENT_FUNDS" -> code e <> Some "CALL_EXCEPTION" ->
    truthy (reason e) = false -> message e = Some m -> m <> "" ->
    surfaced_as e m
| surfaced_fallback :
    code e <> Some "INSUFFICIENT_FUNDS" -> code e <> Some "CALL_EXCEPTION" ->
    truthy (reason e) = false -> truthy (message e) = false ->
    surfaced_as e "An unexpected error occurred. Please try again.".

(** The remote write carries the merged count: whatever count is passed
    to [updateWhitelist] for an address is the count of that address's
    entry in the whitelist the call leaves behind. *)
Definition persists_merged_count (p : Props) (s : State) (w : World) : Prop :=
  forall addr c,
    UpdateWhitelist addr c ∈ trace (handleReserve p s w) ->
    forall entry,
      entry ∈ whitelist (step s (ReserveClicked p w)) ->
      address entry = addr -> count entry = c.

(** The running total agrees with the entry list. *)
Definition total_in_sync (s : State) : Prop :=
  totalReserved s = sumCounts (whitelist s).

(** ** Sample collaborators and states *)

(** Every call succeeds and the wallet is on the required chain. *)
Definition okWorld : World :=
  {| newBrowserProvider := Resolved tt;
     getSigner := Resolved tt;
     getNetwork := Resolved 33139;
     switchToApeChain := Resolved tt;
     sendTransaction := fun _ _ => Resolved tt;
     txWait := Resolved tt;
     updateWhitelist := fun _ _ => Resolved tt |}.

Definition storeDown : JsError :=
  {| code := Some "unavailable"; reason := None;
     message := Some "The service is currently unavailable." |}.

(** As [okWorld], but the remote store refuses the write. *)
Definition storeDownWorld : World :=
  {| newBrowserProvider := Resolved tt;
     getSigner := Resolved tt;
     getNetwork := Resolved 33139;
     switchToApeChain := Resolved tt;
     sendTransaction := fun _ _ => Resolved tt;
     txWait := Resolved tt;
     updateWhitelist := fun _ _ => Rejected storeDown |}.

Definition userRejected : JsError :=
  {| code := Some "ACTION_REJECTED"; reason := Some "rejected";
     message := Some "user rejected action" |}.

(** As [okWorld], but the user declines the transfer in the wallet. *)
Definition decliningWorld : World :=
  {| newBrowserProvider := Resolved tt;
     getSigner := Resolved tt;
     getNetwork := Resolved 33139;
     switchToApeChain := Resolved tt;
     sendTransaction := fun _ _ => Rejected userRejected;
     txWait := Resolved tt;
     updateWhitelist := fun _ _ => Resolved tt |}.

Definition propsA : Props :=
  {| id := "reserve"; walletAddress := Some "0xA";
     recipientAddress := "0xR"; userQualifies := true |}.

Definition propsB : Props :=
  {| id := "reserve"; walletAddress := Some "0xB";
     recipientAddress := "0xR"; userQualifies := true |}.

(** Address A holds two spots and asks for three more. *)
Definition repeatState : State :=
  {| selectedCount := 3; whitelist := [ mkEntry "0xA" 2 ];
     totalReserved := 2; loading := false; expanded := false |}.

(** 330 spots are taken and five more are asked for. *)
Definition nearlyFullState : State :=
  {| selectedCount := 5; whitelist := [ mkEntry "0xB" 330 ];
     totalReserved := 330; loading := false; expanded := false |}.

(** A store that answers with two entries for the same address. *)
Definition duplicatedFetch : list Entry :=
  [ mkEntry "0xA" 1; mkEntry "0xA" 1 ].

Definition duplicatedState : State :=
  step (step initialState (Mounted (Resolved duplicatedFetch)))
       (ReserveClicked propsA okWorld).

(** The component after the store answered with A holding two spots. *)
Definition loadedState : State :=
  step initialState (Mounted (Resolved [ mkEntry "0xA" 2 ])).

(** The component after the store answered with B holding 330 spots. *)
Definition loadedNearCapState : State :=
  step initialState (Mounted (Resolved [ mkEntry "0xB" 330 ])).

(** Twelve reservations, for the display controls. *)
Definition twelveEntries : list Entry :=
  map (fun i => mkEntry (toString (Z.of_nat i)) 1) (seq 0 12).

Definition twelveState : State :=
  {| selectedCount := 1; whitelist := twelveEntries;
     totalReserved := 12; loading := false; expanded := false |}.

(** ** The ways a call of handleReserve can go *)

(** What the [catch] and [finally] blocks do with a thrown error. *)
Definition caught (e : JsError) : list Effect :=
  [ConsoleError "Transaction failed:" e; Alert (errorAlert e);
   SetLoading false].

(** Every call of the handler follows one of eleven paths, told apart by
    the wallet check, the answers of the collaborators and the cap test;
    each path fixes the trace and the completion. *)
Inductive ReservePath (p : Props) (s : State) (w : World)
  : Proc unit -> Prop :=
| path_no_wallet :
    truthy (walletAddress p) = false ->
    ReservePath p s w
      ([Alert "Please connect your wallet to proceed."], Return)
| path_no_provider e :
    truthy (walletAddress p) = true ->
    newBrowserProvider w = Rejected e ->
    ReservePath p s w
      ([SetLoading true; NewBrowserProvider] ++ caught e, Normal tt)
| path_no_signer e :
    truthy (walletAddress p) = true ->
    newBrowserProvider w = Resolved tt ->
    getSigner w = Rejected e ->
    ReservePath p s w
      ([SetLoading true; NewBrowserProvider; GetSigner] ++ caught e,
       Normal tt)
| path_no_network e :
    truthy (walletAddress p) = true ->
    newBrowserProvider w = Resolved tt ->
    getSigner w = Resolved tt ->
    getNetwork w = Rejected e ->
    ReservePath p s w
      ([SetLoading true; NewBrowserProvider; GetSigner; GetNetwork]
       ++ caught e, Normal tt)
| path_switched chainId :
    truthy (walletAddress p) = true ->
    newBrowserProvider w = Resolved tt ->
    getSigner w = Resolved tt ->
    getNetwork w = Resolved chainId -> chainId <> apeChainId ->
    switchToApeChain w = Resolved tt ->
    ReservePath p s w
      ([SetLoading true; NewBrowserProvider; GetSigner; GetNetwork;
        SwitchToApeChain; SetLoading false], Return)
| path_switch_failed chainId e :
    truthy (walletAddress p) = true ->
    newBrowserProvider w = Resolved tt ->
    getSigner w = Resolved tt ->
    getNetwork w = Resolved chainId -> chainId <> apeChainId ->
    switchToApeChain w = Rejected e ->
    ReservePath p s w
      ([SetLoading true; NewBrowserProvider; GetSigner; GetNetwork;
        SwitchToApeChain] ++ caught e, Normal tt)
| path_over_cap :
    truthy (walletAddress p) = true -> OnApeChain w ->
    totalReserved s + selectedCount s > cap ->
    ReservePath p s w
      ([SetLoading true; NewBrowserProvider; GetSigner; GetNetwork;
        Alert "Reservation limit reached. Please select fewer spots.";
        SetLoading false], Return)
| path_bad_amount e :
    truthy (walletAddress p) = true -> OnApeChain w ->
    totalReserved s + selectedCount s <= cap ->
    parseEther (toString (selectedCount s * 2)) = Rejected e ->
    ReservePath p s w
      ([SetLoading true; NewBrowserProvider; GetSigner; GetNetwork]
       ++ caught e, Normal tt)
| path_not_sent amount e :
    truthy (walletAddress p) = true -> OnApeChain w ->
    totalReserved s + selectedCount s <= cap ->
    parseEther (toString (selectedCount s * 2)) = Resolved amount ->
    sendTransaction w (recipientAddress p) amount = Rejected e ->
    ReservePath p s w
      ([SetLoading true; NewBrowserProvider; GetSigner; GetNetwork;
        SendTransaction (recipientAddress p) amount] ++ caught e,
       Normal tt)
| path_not_confirmed amount e :
    truthy (walletAddress p) = true -> OnApeChain w ->
    totalReserved s + selectedCount s <= cap ->
    parseEther (toString (selectedCount s * 2)) = Resolved amount ->
    sendTransaction w (recipientAddress p) amount = Resolved tt ->
    txWait w = Rejected e ->
    ReservePath p s w
      ([SetLoading true; NewBrowserProvider; GetSigner; GetNetwork;
        SendTransaction (recipientAddress p) amount; TxWait] ++ caught e,
       Normal tt)
| path_confirmed wallet amount :
    Connected p wallet -> OnApeChain w ->
    totalReserved s + selectedCount s <= cap ->
    PaymentConfirmed p s w amount ->
    ReservePath p s w
      ([SetLoading true; NewBrowserProvider; GetSigner; GetNetwork;
        SendTransaction (recipientAddress p) amount; TxWait;
        SetWhitelist
          (updatedWhitelist (whitelist s) wallet (selectedCount s));
        SetTotalReservedPlus (selectedCount s);
        UpdateWhitelist wallet (selectedCount s)]
       ++ afterPersist (updateWhitelist w wallet (selectedCount s))
       ++ [SetLoading false], Normal tt).

(** The calls into the collaborators, in the order they are made. *)
Definition sdkCalls (t : list Effect) : list Effect :=
  omap (fun ef =>
          match ef with
          | NewBrowserProvider | GetSigner | GetNetwork | SwitchToApeChain
          | SendTransaction _ _ | TxWait | UpdateWhitelist _ _
          | FetchWhitelist => Some ef
          | _ => None
          end) t.

(** A call of [handleReserve] made in the render of [s] during which the
    fetch of the mount effect settles: the handler's first [k] effects
    are committed, then those of [loadWhitelist], then the rest of the
    handler's. The handler keeps the [whitelist] and [selectedCount] of
    its own render throughout. *)
Definition reserveAcrossFetch
    (p : Props) (s : State) (w : World)
    (fetched : Outcome (list Entry)) (k : nat) : State :=
  let t := trace (handleReserve p s w) in
  commit (commit (commit s (take k t)) (trace (loadWhitelist fetched)))
         (drop k t).

(** The state after a history of events, from the first render on, each
    event handled to completion before the next one starts. *)
Definition runEvents (evs : list Event) : State :=
  fold_left step evs initialState.

(** The store keeps to the data model: what a fetch returns has one
    entry per address at most and counts within the cap. *)
Definition store_respects_model (ev : Event) : Prop :=
  match ev with
  | Mounted (Resolved fetched) =>
      NoDup (addresses fetched) /\ sumCounts fetched <= cap
  | _ => True
  end.

(** No wallet connected, and an empty address. *)
Definition propsNoWallet : Props :=
  {| id := "reserve"; walletAddress := None;
     recipientAddress := "0xR"; userQualifies := true |}.

Definition propsEmptyWallet : Props :=
  {| id := "reserve"; walletAddress := Some "";
     recipientAddress := "0xR"; userQualifies := true |}.

(** As [okWorld], but the wallet is on chain 1. *)
Definition otherChainWorld : World :=
  {| newBrowserProvider := Resolved tt;
     getSigner := Resolved tt;
     getNetwork := Resolved 1;
     switchToApeChain := Resolved tt;
     sendTransaction := fun _ _ => Resolved tt;
     txWait := Resolved tt;
     updateWhitelist := fun _ _ => Resolved tt |}.

(** The store holds exactly the cap. *)
Definition soldOutState : State :=
  step initialState (Mounted (Resolved [ mkEntry "0xB" 333 ])).

(** Ten spots are selected in the first render, before the fetch of the
    mount effect has settled. *)
Definition tenSelectedState : State := step initialState (Selected 10).

(** A store within the data model: one address, 333 spots. *)
Definition fullStoreFetch : list Entry := [ mkEntry "0xB" 333 ].

(** A pays for ten spots from the first render, and the fetch settles
    with [fullStoreFetch] while the handler awaits the signer. *)
Definition overrunState : State :=
  reserveAcrossFetch propsA tenSelectedState okWorld
    (Resolved fullStoreFetch) 3.


(** A run that ends in such a state: A reserves ten spots 33 times
    before the fetch has settled, then selects three more; the fetch,
    which read the store before any of these writes, settles with the
    empty list while the 34th call awaits the signer. *)
Definition beforeFetchState : State :=
  fold_left step
    ([Selected 10] ++ replicate 33 (ReserveClicked propsA okWorld)
     ++ [Selected 3])
    initialState.

Definition staleRunState : State :=
  reserveAcrossFetch propsA beforeFetchState okWorld (Resolved []) 3.

(** * Properties *)

Arguments parseEther : simpl never.
Arguments toString : simpl never.
Arguments updatedWhitelist : simpl never.
Arguments errorAlert : simpl never.

(** ** Proof automation for the handler's paths *)

Ltac unfold_proc :=
  unfold step, handle, handleReserve, reserveAttempt, loadWhitelist,
    toggleExpanded, try_catch_finally, try_catch, when,
    bind, call, lift, emit, return_, ret, trace, completion, commit.

(** Splits on every collaborator's answer and every branch condition. *)
Ltac settle :=
  repeat (cbn;
    match goal with
    | u : unit |- _ => destruct u
    | |- context [match ?o with Resolved _ => _ | Rejected _ => _ end] =>
        destruct o eqn:?
    | |- context [if ?b then _ else _] => destruct b eqn:?
    end);
  cbn in *; try discriminate.

Ltac cap_facts :=
  repeat match goal with
  | H : (_ >? _)%Z = false |- _ => rewrite Z.gtb_ltb in H; apply Z.ltb_ge in H
  | H : (_ >? _)%Z = true |- _ => rewrite Z.gtb_ltb in H; apply Z.ltb_lt in H
  end.

(** Decide the cap test of line 58 from the arithmetic context. *)
Ltac over_cap :=
  match goal with
  | |- context [(?a >? ?b)%Z] =>
      destruct (Z.gtb_spec a b); [|unfold cap in *; lia]
  end.

Ltac under_cap :=
  match goal with
  | |- context [(?a >? ?b)%Z] =>
      destruct (Z.gtb_spec a b); [unfold cap in *; lia|]
  end.


(** ** Sums of counts *)

Section SumCounts.

Lemma sumCounts_from (l : list Entry) (acc : Z) :
  fold_left (fun total entry => total + count entry) l acc
  = acc + sumCounts l.
Proof.
  unfold sumCounts. revert acc.
  induction l as [|e l IH]; intros acc; simpl.
  - lia.
  - rewrite (IH (acc + count e)), (IH (0 + count e)). lia.
Qed.

Lemma sumCounts_nil : sumCounts [] = 0.
Proof. reflexivity. Qed.

Lemma sumCounts_cons (e : Entry) (l : list Entry) :
  sumCounts (e :: l) = count e + sumCounts l.
Proof. unfold sumCounts at 1. simpl. rewrite sumCounts_from. lia. Qed.

Lemma sumCounts_app (l1 l2 : list Entry) :
  sumCounts (l1 ++ l2) = sumCounts l1 + sumCounts l2.
Proof.
  induction l1 as [|e l1 IH]; simpl.
  - rewrite sumCounts_nil. lia.
  - rewrite !sumCounts_cons, IH. lia.
Qed.

End SumCounts.

(** ** The merge-or-append of handleReserve *)

Section MergeOrAppend.

Variable wallet : string.
Variable q : Z.

Lemma updatedWhitelist_unfold (wl : list Entry) :
  updatedWhitelist wl wallet q =
  if negb (existsb (fun entry => String.eqb (address entry) wallet) wl)
  then map (bump wallet q) wl ++ [ mkEntry wallet q ]
  else map (bump wallet q) wl.
Proof. reflexivity. Qed.

Lemma some_address_spec (wl : list Entry) :
  existsb (fun entry => String.eqb (address entry) wallet) wl = true
  <-> wallet ∈ addresses wl.
Proof.
  unfold addresses. induction wl as [|e wl IH]; simpl.
  - split; [discriminate | intros H; inversion H].
  - rewrite orb_true_iff, IH, elem_of_cons, String.eqb_eq.
    split; intros [H|H]; auto.
Qed.

Lemma bump_address (e : Entry) : address (bump wallet q e) = address e.
Proof. unfold bump. destruct (String.eqb _ _); reflexivity. Qed.

Lemma bump_other (e : Entry) : address e <> wallet -> bump wallet q e = e.
Proof.
  intros H. unfold bump.
  destruct (String.eqb_spec (address e) wallet); [contradiction | reflexivity].
Qed.

Lemma bump_own (e : Entry) :
  address e = wallet -> bump wallet q e = mkEntry wallet (count e + q).
Proof. intros H. unfold bump. rewrite H, String.eqb_refl. reflexivity. Qed.

Lemma addresses_bump (wl : list Entry) :
  addresses (map (bump wallet q) wl) = addresses wl.
Proof.
  unfold addresses. induction wl as [|e wl IH]; simpl; [reflexivity|].
  rewrite bump_address, IH. reflexivity.
Qed.

Lemma bump_absent (wl : list Entry) :
  wallet ∉ addresses wl -> map (bump wallet q) wl = wl.
Proof.
  unfold addresses. induction wl as [|e wl IH]; simpl; intros H.
  - reflexivity.
  - rewrite not_elem_of_cons in H. destruct H as [Hne Hnot].
    rewrite bump_other by congruence. rewrite IH by assumption. reflexivity.
Qed.

Lemma updatedWhitelist_new (wl : list Entry) :
  wallet ∉ addresses wl ->
  updatedWhitelist wl wallet q = wl ++ [ mkEntry wallet q ].
Proof.
  intros H. rewrite updatedWhitelist_unfold.
  destruct (existsb _ wl) eqn:E.
  - apply some_address_spec in E. contradiction.
  - simpl. rewrite bump_absent by assumption. reflexivity.
Qed.

Lemma updatedWhitelist_repeat (wl : list Entry) :
  wallet ∈ addresses wl ->
  updatedWhitelist wl wallet q = map (bump wallet q) wl.
Proof.
  intros H. rewrite updatedWhitelist_unfold.
  apply some_address_spec in H. rewrite H. reflexivity.
Qed.

Lemma sumCounts_bump_once (wl : list Entry) :
  NoDup (addresses wl) -> wallet ∈ addresses wl ->
  sumCounts (map (bump wallet q) wl) = sumCounts wl + q.
Proof.
  unfold addresses. induction wl as [|e wl IH]; simpl; intros Hnd Hin.
  - inversion Hin.
  - apply NoDup_cons in Hnd. destruct Hnd as [Hfresh Hnd].
    rewrite !sumCounts_cons.
    destruct (String.eqb_spec (address e) wallet) as [Heq|Hne].
    + rewrite bump_own by assumption. simpl.
      rewrite bump_absent by (unfold addresses; congruence). lia.
    + rewrite bump_other by assumption.
      apply elem_of_cons in Hin. destruct Hin as [Hin|Hin]; [congruence|].
      rewrite IH by assumption. lia.
Qed.

Lemma sumCounts_updatedWhitelist (wl : list Entry) :
  NoDup (addresses wl) ->
  sumCounts (updatedWhitelist wl wallet q) = sumCounts wl + q.
Proof.
  intros Hnd. destruct (decide (wallet ∈ addresses wl)) as [Hin|Hout].
  - rewrite updatedWhitelist_repeat by assumption.
    apply sumCounts_bump_once; assumption.
  - rewrite updatedWhitelist_new by assumption.
    rewrite sumCounts_app, sumCounts_cons, sumCounts_nil. simpl. lia.
Qed.

Lemma NoDup_updatedWhitelist (wl : list Entry) :
  NoDup (addresses wl) -> NoDup (addresses (updatedWhitelist wl wallet q)).
Proof.
  intros Hnd. destruct (decide (wallet ∈ addresses wl)) as [Hin|Hout].
  - rewrite updatedWhitelist_repeat by assumption.
    rewrite addresses_bump. assumption.
  - rewrite updatedWhitelist_new by assumption.
    unfold addresses in *. rewrite map_app. simpl.
    apply NoDup_app. split; [assumption|]. split.
    + intros x Hx Hy. apply list_elem_of_singleton in Hy. congruence.
    + apply NoDup_singleton.
Qed.

Lemma NoDup_before_update (wl : list Entry) :
  NoDup (addresses (updatedWhitelist wl wallet q)) -> NoDup (addresses wl).
Proof.
  destruct (decide (wallet ∈ addresses wl)) as [Hin|Hout].
  - rewrite updatedWhitelist_repeat by assumption.
    rewrite addresses_bump. trivial.
  - rewrite updatedWhitelist_new by assumption.
    unfold addresses. rewrite map_app. intros H.
    apply NoDup_app in H. tauto.
Qed.

Lemma lookup_bump (wl : list Entry) (i : nat) :
  map (bump wallet q) wl !! i = bump wallet q <$> wl !! i.
Proof. apply list_lookup_fmap. Qed.

End MergeOrAppend.

(** ** Paths through handleReserve *)

Section Paths.

Variables (p : Props) (s : State) (w : World).

Lemma connected_truthy (wallet : string) :
  Connected p wallet ->
  truthy (walletAddress p) = true /\ default "" (walletAddress p) = wallet.
Proof.
  intros [Hw Hne]. rewrite Hw. simpl. split; [|reflexivity].
  destruct (String.eqb_spec wallet ""); [contradiction | reflexivity].
Qed.

(** Without a wallet the handler only asks for one. *)
Lemma handleReserve_disconnected :
  truthy (walletAddress p) = false ->
  handleReserve p s w =
  ([Alert "Please connect your wallet to proceed."], Return).
Proof. intros H. unfold handleReserve. rewrite H. reflexivity. Qed.

(** On another chain the handler asks to switch and stops. *)
Lemma handleReserve_wrong_chain (wallet : string) (chainId : Z) :
  Connected p wallet ->
  newBrowserProvider w = Resolved tt -> getSigner w = Resolved tt ->
  getNetwork w = Resolved chainId -> chainId <> apeChainId ->
  trace (handleReserve p s w) =
  [SetLoading true; NewBrowserProvider; GetSigner; GetNetwork;
   SwitchToApeChain]
  ++ match switchToApeChain w with
     | Resolved _ => []
     | Rejected e =>
         [ConsoleError "Transaction failed:" e; Alert (errorAlert e)]
     end
  ++ [SetLoading false].
Proof.
  intros Hc Hp Hs Hn Hne. apply connected_truthy in Hc as [Ht _].
  unfold_proc. rewrite Ht, Hp, Hs, Hn. cbn.
  apply Z.eqb_neq in Hne. rewrite Hne. cbn.
  destruct (switchToApeChain w); reflexivity.
Qed.

(** Over the cap the handler alerts and stops. *)
Lemma handleReserve_over_cap (wallet : string) :
  Connected p wallet -> OnApeChain w ->
  totalReserved s + selectedCount s > cap ->
  handleReserve p s w =
  ([SetLoading true; NewBrowserProvider; GetSigner; GetNetwork;
    Alert "Reservation limit reached. Please select fewer spots.";
    SetLoading false], Return).
Proof.
  intros Hc (Hp & Hs & Hn) Hcap. apply connected_truthy in Hc as [Ht _].
  unfold_proc. rewrite Ht, Hp, Hs, Hn. cbn.
  over_cap; reflexivity.
Qed.

(** The whole run once the transfer is confirmed. *)
Lemma handleReserve_confirmed (wallet : string) (amount : Z) :
  Connected p wallet -> OnApeChain w ->
  totalReserved s + selectedCount s <= cap ->
  PaymentConfirmed p s w amount ->
  handleReserve p s w =
  ([SetLoading true; NewBrowserProvider; GetSigner; GetNetwork;
    SendTransaction (recipientAddress p) amount; TxWait;
    SetWhitelist (updatedWhitelist (whitelist s) wallet (selectedCount s));
    SetTotalReservedPlus (selectedCount s);
    UpdateWhitelist wallet (selectedCount s)]
   ++ afterPersist (updateWhitelist w wallet (selectedCount s))
   ++ [SetLoading false],
   Normal tt).
Proof.
  intros Hc (Hp & Hs & Hn) Hcap (Ha & Htx & Hwait).
  apply connected_truthy in Hc as [Ht Hd].
  unfold_proc. rewrite Ht, Hp, Hs, Hn. cbn.
  under_cap. cbn. rewrite Ha. cbn. rewrite Htx. cbn. rewrite Hwait. cbn.
  rewrite Hd. destruct (updateWhitelist w wallet (selectedCount s)) as [[]|e];
    reflexivity.
Qed.

(** The state a confirmed payment leaves behind, whatever the remote
    store answers. *)
Lemma step_confirmed (wallet : string) (amount : Z) :
  Connected p wallet -> OnApeChain w ->
  totalReserved s + selectedCount s <= cap ->
  PaymentConfirmed p s w amount ->
  step s (ReserveClicked p w) =
  {| selectedCount := selectedCount s;
     whitelist := updatedWhitelist (whitelist s) wallet (selectedCount s);
     totalReserved := totalReserved s + selectedCount s;
     loading := false;
     expanded := expanded s |}.
Proof.
  intros Hc Hw Hcap Hpay. unfold step, handle.
  rewrite (handleReserve_confirmed wallet amount) by assumption.
  unfold trace, commit, afterPersist. cbn.
  destruct (updateWhitelist w wallet (selectedCount s)); reflexivity.
Qed.

(** Every run either leaves the reservation data alone or, under the
    cap, merges the request into it; the quantity and the display mode
    are never touched. *)
Lemma handleReserve_state :
  let s' := step s (ReserveClicked p w) in
  selectedCount s' = selectedCount s /\ expanded s' = expanded s /\
  loading s' = (if truthy (walletAddress p) then false else loading s) /\
  ((whitelist s' = whitelist s /\ totalReserved s' = totalReserved s) \/
   (truthy (walletAddress p) = true /\
    totalReserved s + selectedCount s <= cap /\
    whitelist s' =
      updatedWhitelist (whitelist s) (default "" (walletAddress p))
        (selectedCount s) /\
    totalReserved s' = totalReserved s + selectedCount s)).
Proof.
  unfold_proc.
  destruct (truthy (walletAddress p)) eqn:Hw; cbn.
  2: { repeat split; left; split; reflexivity. }
  settle; cap_facts.
  all: try (repeat split; try reflexivity; left; split; reflexivity).
  all: repeat split; try reflexivity; right; repeat split;
    try reflexivity; lia.
Qed.

(** A throwing attempt has shown no alert of its own. *)
Lemma reserveAttempt_throw_silent (e : JsError) :
  completion (reserveAttempt p s w) = Throw e ->
  alerts (trace (reserveAttempt p s w)) = [].
Proof.
  unfold_proc. settle; intros H; try discriminate; reflexivity.
Qed.

End Paths.

(** ** parseEther on the quantities of the select *)

Lemma parseEther_quantity (q : Z) :
  1 <= q <= 10 -> parseEther (toString (q * 2)) = Resolved (q * 2 * ether).
Proof.
  intros H.
  assert (q = 1 \/ q = 2 \/ q = 3 \/ q = 4 \/ q = 5 \/
          q = 6 \/ q = 7 \/ q = 8 \/ q = 9 \/ q = 10) as Hq by lia.
  repeat (destruct Hq as [->|Hq]; [vm_compute; reflexivity|]).
  subst q. vm_compute. reflexivity.
Qed.

(** ** The cap is enforced before any transfer *)

(** C1. Whatever the component state, when [totalReserved + selectedCount]
    exceeds 333 a call of [handleReserve] with a connected wallet on the
    required chain shows the limit alert and returns: no transaction is
    sent, and the whitelist and the running total are what they were. *)
Theorem handleReserve_rejects_over_cap
    (p : Props) (s : State) (w : World) (wallet : string) :
  Connected p wallet -> OnApeChain w ->
  totalReserved s + selectedCount s > 333 ->
  alerts (trace (handleReserve p s w))
    = ["Reservation limit reached. Please select fewer spots."]
  /\ completion (handleReserve p s w) = Return
  /\ (forall to value, SendTransaction to value ∉ trace (handleReserve p s w))
  /\ whitelist (step s (ReserveClicked p w)) = whitelist s
  /\ totalReserved (step s (ReserveClicked p w)) = totalReserved s.
Proof.
  intros Hc Hw Hcap. unfold step, handle.
  rewrite (handleReserve_over_cap p s w wallet) by assumption.
  cbn. repeat split.
  intros to value Hin.
  repeat (apply elem_of_cons in Hin as [Hin|Hin]; [discriminate|]).
  inversion Hin.
Qed.

(** The scenario of the specification: 330 reserved, 5 requested. *)
Lemma handleReserve_rejects_over_cap_witness :
  alerts (trace (handleReserve propsA nearlyFullState okWorld))
    = ["Reservation limit reached. Please select fewer spots."]
  /\ completion (handleReserve propsA nearlyFullState okWorld) = Return
  /\ (forall to value,
        SendTransaction to value
          ∉ trace (handleReserve propsA nearlyFullState okWorld))
  /\ whitelist (step nearlyFullState (ReserveClicked propsA okWorld))
     = whitelist nearlyFullState
  /\ totalReserved (step nearlyFullState (ReserveClicked propsA okWorld))
     = totalReserved nearlyFullState.
Proof.
  apply (handleReserve_rejects_over_cap propsA nearlyFullState okWorld "0xA").
  - split; [reflexivity | discriminate].
  - repeat split.
  - reflexivity.
Defined.

Example nearly_full_still_shows_three :
  totalAvailable
    (render propsA (step nearlyFullState (ReserveClicked propsA okWorld))) = 3.
Proof. reflexivity. Qed.

(** ** Merge or append *)

(** C2. After a confirmed transfer by an address that has no entry, the
    whitelist is the old one followed by the single entry
    [{address, count = q}]. For an address that has an entry, the list
    keeps its length and its addresses, the entry of that address has its
    count raised by [q] and every other entry is the one it was; with one
    entry for the address, that entry alone changes in place. *)
Theorem confirmed_payment_merges_or_appends
    (p : Props) (s : State) (w : World) (wallet : string) (amount : Z) :
  Connected p wallet -> OnApeChain w ->
  totalReserved s + selectedCount s <= cap ->
  PaymentConfirmed p s w amount ->
  let q := selectedCount s in
  let wl := whitelist s in
  let wl' := whitelist (step s (ReserveClicked p w)) in
  (wallet ∉ addresses wl -> wl' = wl ++ [ mkEntry wallet q ])
  /\ (wallet ∈ addresses wl ->
      addresses wl' = addresses wl
      /\ forall i entry,
           wl !! i = Some entry ->
           wl' !! i =
             Some (if decide (address entry = wallet)
                   then mkEntry wallet (count entry + q)
                   else entry))
  /\ (forall l1 entry l2,
        wl = l1 ++ entry :: l2 -> address entry = wallet ->
        wallet ∉ addresses l1 -> wallet ∉ addresses l2 ->
        wl' = l1 ++ mkEntry wallet (count entry + q) :: l2).
Proof.
  intros Hc Hw Hcap Hpay q wl wl'. subst wl'.
  rewrite (step_confirmed p s w wallet amount) by assumption. cbn.
  fold q wl. split; [|split].
  - apply updatedWhitelist_new.
  - intros Hin. rewrite updatedWhitelist_repeat by assumption.
    split; [apply addresses_bump|].
    intros i entry Hi. rewrite lookup_bump, Hi. cbn. f_equal.
    destruct (decide (address entry = wallet)) as [Heq|Hne].
    + apply bump_own. assumption.
    + apply bump_other. assumption.
  - intros l1 entry l2 Hwl Heq H1 H2.
    rewrite updatedWhitelist_repeat.
    + rewrite Hwl, map_app. cbn.
      rewrite !bump_absent by assumption.
      rewrite bump_own by assumption. reflexivity.
    + rewrite Hwl. unfold addresses. rewrite map_app. cbn.
      apply elem_of_app. right. rewrite Heq. apply elem_of_cons. left.
      reflexivity.
Qed.

(** The scenario of the specification: A holds 2 and pays for 3 more. *)
Lemma confirmed_payment_merges_or_appends_witness :
  whitelist (step repeatState (ReserveClicked propsA okWorld))
  = [ mkEntry "0xA" 5 ].
Proof.
  pose proof (confirmed_payment_merges_or_appends
                propsA repeatState okWorld "0xA" 6000000000000000000) as H.
  cbv zeta in H.
  destruct H as (_ & _ & H).
  - split; [reflexivity | discriminate].
  - repeat split.
  - cbn. unfold cap. lia.
  - repeat split.
  - apply (H [] (mkEntry "0xA" 2) []).
    + reflexivity.
    + reflexivity.
    + apply not_elem_of_nil.
    + apply not_elem_of_nil.
Defined.

Example first_reservation_scenario :
  let s' := step initialState (ReserveClicked propsA okWorld) in
  whitelist s' = [ mkEntry "0xA" 1 ]
  /\ totalAvailable (render propsA s') = 332.
Proof. split; reflexivity. Qed.

(** ** What is written to the remote store *)

(** The call of line 84 carries [selectedCount], whereas the local entry
    holds the merged count: for A holding 2 and paying for 3, the store
    is handed 3 and the local entry reads 5. *)
Lemma remote_write_is_not_merged_count :
  UpdateWhitelist "0xA" 3 ∈ trace (handleReserve propsA repeatState okWorld)
  /\ whitelist (step repeatState (ReserveClicked propsA okWorld))
     = [ mkEntry "0xA" 5 ]
  /\ ~ persists_merged_count propsA repeatState okWorld.
Proof.
  assert (UpdateWhitelist "0xA" 3
            ∈ trace (handleReserve propsA repeatState okWorld)) as Hin.
  { cbn. do 8 apply list_elem_of_further. apply list_elem_of_here. }
  split; [exact Hin|]. split; [reflexivity|].
  intros Hclaim.
  specialize (Hclaim "0xA" 3 Hin (mkEntry "0xA" 5)).
  cbn in Hclaim.
  assert (5 = 3) as Habs.
  { apply Hclaim; [apply list_elem_of_here | reflexivity]. }
  discriminate Habs.
Qed.

(** C3, amended. After a confirmed transfer the one remote write is
    [updateWhitelist(wallet, q)] with [q] the selected quantity. For a new
    address that is the count of the appended entry; for a repeat address
    every entry of the address holds its previous count plus the value
    written, so the value written is the increment, not the merged
    count. *)
Theorem remote_write_is_the_increment
    (p : Props) (s : State) (w : World) (wallet : string) (amount : Z) :
  Connected p wallet -> OnApeChain w ->
  totalReserved s + selectedCount s <= cap ->
  PaymentConfirmed p s w amount ->
  let q := selectedCount s in
  let wl' := whitelist (step s (ReserveClicked p w)) in
  (forall addr c,
     UpdateWhitelist addr c ∈ trace (handleReserve p s w) <->
     addr = wallet /\ c = q)
  /\ (wallet ∉ addresses (whitelist s) ->
      forall entry, entry ∈ wl' -> address entry = wallet -> count entry = q)
  /\ (forall i entry,
        whitelist s !! i = Some entry -> address entry = wallet ->
        wl' !! i = Some (mkEntry wallet (count entry + q))).
Proof.
  intros Hc Hw Hcap Hpay q wl'. subst wl'.
  rewrite (step_confirmed p s w wallet amount) by assumption.
  rewrite (handleReserve_confirmed p s w wallet amount) by assumption.
  cbn. fold q. split; [|split].
  - intros addr c. split.
    + intros Hin.
      repeat (apply elem_of_cons in Hin as [Hin|Hin]; [discriminate|]).
      apply elem_of_cons in Hin as [Hin|Hin].
      { inversion Hin. split; reflexivity. }
      apply elem_of_app in Hin as [Hin|Hin].
      * unfold afterPersist in Hin.
        destruct (updateWhitelist w wallet q);
          repeat (apply elem_of_cons in Hin as [Hin|Hin]; [discriminate|]);
          inversion Hin.
      * apply list_elem_of_singleton in Hin. discriminate.
    + intros [-> ->]. do 8 apply list_elem_of_further. apply list_elem_of_here.
  - intros Hnew entry Hin Haddr.
    rewrite updatedWhitelist_new in Hin by assumption.
    apply elem_of_app in Hin as [Hin|Hin].
    + exfalso. apply Hnew. unfold addresses. rewrite <- Haddr.
      apply list_elem_of_fmap_2. assumption.
    + apply list_elem_of_singleton in Hin. subst entry. reflexivity.
  - intros i entry Hi Haddr.
    rewrite updatedWhitelist_repeat.
    + rewrite lookup_bump, Hi. cbn. rewrite bump_own by assumption.
      reflexivity.
    + unfold addresses. rewrite <- Haddr.
      apply list_elem_of_fmap_2. apply list_elem_of_lookup. eauto.
Qed.

Lemma remote_write_is_the_increment_witness :
  (UpdateWhitelist "0xA" 3 ∈ trace (handleReserve propsA repeatState okWorld)
   <-> "0xA" = "0xA" /\ 3 = 3)
  /\ whitelist (step repeatState (ReserveClicked propsA okWorld)) !! 0%nat
     = Some (mkEntry "0xA" (2 + 3)).
Proof.
  pose proof (remote_write_is_the_increment
                propsA repeatState okWorld "0xA" 6000000000000000000) as H.
  cbv zeta in H.
  destruct H as (Hcall & _ & Hrepeat).
  - split; [reflexivity | discriminate].
  - repeat split.
  - cbn. unfold cap. lia.
  - repeat split.
  - split; [apply (Hcall "0xA" 3)|].
    apply (Hrepeat 0%nat (mkEntry "0xA" 2)); reflexivity.
Defined.

(** ** The running total and the entry list *)

Section Steps.

Variable s : State.

Lemma step_mounted_resolved (fetched : list Entry) :
  step s (Mounted (Resolved fetched)) =
  {| selectedCount := selectedCount s; whitelist := fetched;
     totalReserved := sumCounts fetched; loading := loading s;
     expanded := expanded s |}.
Proof. reflexivity. Qed.

Lemma step_mounted_rejected (e : JsError) :
  step s (Mounted (Rejected e)) = s.
Proof. reflexivity. Qed.

Lemma step_selected (v : Z) :
  step s (Selected v) =
  {| selectedCount := v; whitelist := whitelist s;
     totalReserved := totalReserved s; loading := loading s;
     expanded := expanded s |}.
Proof. reflexivity. Qed.

Lemma step_toggled :
  step s Toggled =
  {| selectedCount := selectedCount s; whitelist := whitelist s;
     totalReserved := totalReserved s; loading := loading s;
     expanded := negb (expanded s) |}.
Proof. reflexivity. Qed.

End Steps.

(** What holds between any two events: the component is idle, the
    quantity is one the select offers, and the running total is the sum
    of the counts as long as no address occurs twice. *)
Lemma reachable_invariant (s : State) :
  reachable s ->
  loading s = false
  /\ 1 <= selectedCount s <= 10
  /\ (NoDup (addresses (whitelist s)) -> total_in_sync s).
Proof.
  unfold total_in_sync.
  induction 1 as [|s ev Hreach (Hload & Hsel & Hsync) Hev].
  - cbn. repeat split; try lia.
  - destruct ev as [[fetched|e]| v | | p w].
    + rewrite step_mounted_resolved. cbn. auto.
    + rewrite step_mounted_rejected. auto.
    + rewrite step_selected. cbn. cbn in Hev. auto.
    + rewrite step_toggled. cbn. auto.
    + destruct (handleReserve_state p s w) as (Hq & _ & Hl & Hdata).
      rewrite Hq, Hl. split; [destruct (truthy _); auto|]. split; [assumption|].
      destruct Hdata as [[Hwl Htot]|(_ & _ & Hwl & Htot)];
        rewrite Hwl, Htot.
      * assumption.
      * intros Hnd. rewrite sumCounts_updatedWhitelist.
        -- rewrite Hsync; [reflexivity|].
           eapply NoDup_before_update. eassumption.
        -- eapply NoDup_before_update. eassumption.
Qed.

(** Why the amended statement below asks for one entry per address: a
    store that answers with two entries for one address puts the total and
    the list apart even when every event is handled on its own. After A
    reserves one more spot the page shows 330 available while the entries
    leave 329. *)
Lemma total_drifts_from_duplicated_entries :
  reachable duplicatedState
  /\ totalAvailable (render propsA duplicatedState) = 330
  /\ cap - sumCounts (whitelist duplicatedState) = 329
  /\ ~ (forall s, reachable s ->
        forall p, totalAvailable (render p s) = cap - sumCounts (whitelist s)).
Proof.
  assert (reachable duplicatedState) as Hreach.
  { unfold duplicatedState. repeat apply reach_step; cbn; auto using reach_init. }
  split; [exact Hreach|]. split; [reflexivity|]. split; [reflexivity|].
  intros Hclaim. specialize (Hclaim duplicatedState Hreach propsA).
  vm_compute in Hclaim. discriminate Hclaim.
Qed.

(** The fetch settling during a call puts the total and the list apart.
    The page is mounted, ten spots are selected and A pays, all in the
    first render (empty whitelist, total 0); while the handler awaits the
    signer the fetch settles with one entry of 333 spots, a list within
    the data model. The cap test of line 58 reads the total of the
    handler's render, 0; line 81 writes the list of that render with A
    appended; line 82 adds 10 to the current total, 333. The page then
    shows -10 available beside a list whose counts leave 323. *)
Lemma total_drifts_when_fetch_settles_during_call :
  NoDup (addresses fullStoreFetch)
  /\ sumCounts fullStoreFetch <= cap
  /\ whitelist overrunState = [ mkEntry "0xA" 10 ]
  /\ totalReserved overrunState = 343
  /\ totalAvailable (render propsA overrunState) = -10
  /\ cap - sumCounts (whitelist overrunState) = 323
  /\ totalAvailable (render propsA overrunState)
     <> cap - sumCounts (whitelist overrunState).
Proof.
  split; [vm_compute; apply NoDup_singleton|].
  split; [vm_compute; discriminate|].
  repeat (split; [reflexivity|]).
  vm_compute. discriminate.
Qed.

(** C4, amended. In every state reached by handling the events one at a
    time (the fetch and every call of the handler run to completion
    before the next event, so nothing settles during a call), and in
    which no address has two entries, the running total is the sum of the
    counts of the whole list, and the displayed total available is 333
    minus that sum. *)
Theorem total_available_tracks_entries (s : State) (p : Props) :
  reachable s -> NoDup (addresses (whitelist s)) ->
  totalReserved s = sumCounts (whitelist s)
  /\ totalAvailable (render p s) = 333 - sumCounts (whitelist s).
Proof.
  intros Hreach Hnd.
  destruct (reachable_invariant s Hreach) as (_ & _ & Hsync).
  specialize (Hsync Hnd). unfold total_in_sync in Hsync.
  cbn. rewrite Hsync. split; reflexivity.
Qed.

Lemma total_available_tracks_entries_witness :
  totalReserved (step loadedState (ReserveClicked propsA okWorld))
  = sumCounts (whitelist (step loadedState (ReserveClicked propsA okWorld)))
  /\ totalAvailable
       (render propsA (step loadedState (ReserveClicked propsA okWorld)))
     = 333
       - sumCounts
           (whitelist (step loadedState (ReserveClicked propsA okWorld))).
Proof.
  apply total_available_tracks_entries.
  - unfold loadedState. repeat apply reach_step; cbn; auto using reach_init.
  - vm_compute. apply NoDup_singleton.
Defined.

Example total_available_tracks_entries_values :
  whitelist (step loadedState (ReserveClicked propsA okWorld))
  = [ mkEntry "0xA" 3 ]
  /\ totalReserved (step loadedState (ReserveClicked propsA okWorld)) = 3.
Proof. split; reflexivity. Qed.

(** No event but the fetch can introduce a second entry for an address. *)
Lemma step_keeps_addresses_distinct (s : State) (ev : Event) :
  NoDup (addresses (whitelist s)) ->
  match ev with
  | Mounted (Resolved fetched) => NoDup (addresses fetched)
  | _ => True
  end ->
  NoDup (addresses (whitelist (step s ev))).
Proof.
  intros Hnd Hev. destruct ev as [[fetched|e]| v | | p w]; try assumption.
  destruct (handleReserve_state p s w) as (_ & _ & _ & Hdata).
  destruct Hdata as [[Hwl _]|(_ & _ & Hwl & _)]; rewrite Hwl.
  - assumption.
  - apply NoDup_updatedWhitelist. assumption.
Qed.

(** ** The data-model invariant *)


(** A running total below the sum of the list arises when the fetch
    settles during a call: in [staleRunState] A holds 333 spots, the
    total reads 3, and the next request of ten spots is granted. *)
Example stale_total_arises_in_a_run :
  whitelist staleRunState = [ mkEntry "0xA" 333 ]
  /\ totalReserved staleRunState = 3
  /\ whitelist
       (step (step staleRunState (Selected 10)) (ReserveClicked propsA okWorld))
     = [ mkEntry "0xA" 343 ].
Proof. vm_compute. repeat split. Qed.



Example handleReserve_preserves_data_model_values :
  whitelist (step loadedNearCapState (ReserveClicked propsA okWorld))
  = [ mkEntry "0xB" 330; mkEntry "0xA" 1 ].
Proof. reflexivity. Qed.

(** ** The transfer *)



(** ** Display controls *)

Lemma slice_last_suffix {A} (n : nat) (l : list A) :
  slice_last n l `suffix_of` l.
Proof. unfold slice_last. apply suffix_drop. Qed.

Lemma slice_last_length {A} (n : nat) (l : list A) :
  length (slice_last n l) = Nat.min n (length l).
Proof. unfold slice_last. rewrite length_drop. lia. Qed.

Lemma slice_last_short {A} (n : nat) (l : list A) :
  (length l <= n)%nat -> slice_last n l = l.
Proof.
  intros H. unfold slice_last.
  replace (length l - n)%nat with 0%nat by lia. reflexivity.
Qed.

Lemma toggle_twice (s : State) : step (step s Toggled) Toggled = s.
Proof.
  rewrite !step_toggled. destruct s as [q wl total l e]. cbn.
  rewrite negb_involutive. reflexivity.
Qed.

(** C7. For every whitelist, the collapsed view is the last entries of the
    list, in their order, ten of them at most (all of them when there are
    fewer), and the expanded view is the whole list. Toggling twice gives
    back the state, hence the view. *)
Theorem display_controls
    (q : Z) (wl : list Entry) (total : Z) (busy : bool) :
  let collapsed := mkState q wl total busy false in
  let full := mkState q wl total busy true in
  displayedReservations collapsed `suffix_of` wl
  /\ length (displayedReservations collapsed) = Nat.min 10 (length wl)
  /\ displayedReservations full = wl
  /\ expanded (step collapsed Toggled) = true
  /\ expanded (step full Toggled) = false
  /\ forall s,
       step (step s Toggled) Toggled = s
       /\ displayedReservations (step (step s Toggled) Toggled)
          = displayedReservations s.
Proof.
  intros collapsed full.
  split; [apply (slice_last_suffix 10 wl)|].
  split; [apply (slice_last_length 10 wl)|].
  repeat (split; [reflexivity|]).
  intros s. rewrite toggle_twice. split; reflexivity.
Qed.

Example display_controls_twelve :
  map address (displayedReservations twelveState)
  = ["2"; "3"; "4"; "5"; "6"; "7"; "8"; "9"; "10"; "11"]
  /\ length (displayedReservations (step twelveState Toggled)) = 12%nat.
Proof. split; reflexivity. Qed.

(** ** Errors *)

Lemma alerts_app (t1 t2 : list Effect) :
  alerts (t1 ++ t2) = alerts t1 ++ alerts t2.
Proof. unfold alerts. apply omap_app. Qed.

Lemma js_or_truthy (a : option string) (b r : string) :
  a = Some r -> r <> "" -> js_or a b = r.
Proof.
  intros -> Hne. unfold js_or. cbn.
  destruct (String.eqb_spec r ""); [contradiction | reflexivity].
Qed.

Lemma js_or_falsy (a : option string) (b : string) :
  truthy a = false -> js_or a b = b.
Proof. intros H. unfold js_or. rewrite H. reflexivity. Qed.

Lemma truthy_inv (a : option string) :
  truthy a = true -> exists r, a = Some r /\ r <> "".
Proof.
  destruct a as [r|]; cbn; [|discriminate].
  destruct (String.eqb_spec r ""); [discriminate|]. eauto.
Qed.

Lemma errorAlert_surfaced (e : JsError) : surfaced_as e (errorAlert e).
Proof.
  unfold errorAlert. repeat case_bool_decide.
  - apply surfaced_insufficient_funds. assumption.
  - apply surfaced_call_exception. assumption.
  - destruct (truthy (reason e)) eqn:Hr.
    + destruct (truthy_inv _ Hr) as (r & Hreason & Hne).
      rewrite (js_or_truthy _ _ r) by assumption.
      apply surfaced_reason; assumption.
    + rewrite js_or_falsy by assumption.
      destruct (truthy (message e)) eqn:Hm.
      * destruct (truthy_inv _ Hm) as (m & Hmessage & Hne).
        rewrite (js_or_truthy _ _ m) by assumption.
        apply surfaced_message; assumption.
      * rewrite js_or_falsy by assumption.
        apply surfaced_fallback; assumption.
Qed.

Lemma surfaced_as_unique (e : JsError) (msg : string) :
  surfaced_as e msg -> msg = errorAlert e.
Proof.
  intros H. unfold errorAlert.
  destruct H as [Hc|Hc|r H1 H2 Hr Hne|m H1 H2 Hr Hm Hne|H1 H2 Hr Hm].
  - rewrite bool_decide_eq_true_2 by assumption. reflexivity.
  - rewrite bool_decide_eq_false_2 by (rewrite Hc; discriminate).
    rewrite bool_decide_eq_true_2 by assumption. reflexivity.
  - rewrite !bool_decide_eq_false_2 by assumption.
    symmetry. apply js_or_truthy; assumption.
  - rewrite !bool_decide_eq_false_2 by assumption.
    rewrite js_or_falsy by assumption.
    symmetry. apply js_or_truthy; assumption.
  - rewrite !bool_decide_eq_false_2 by assumption.
    rewrite !js_or_falsy by assumption. reflexivity.
Qed.

(** A throw of the attempt is caught, logged and shown, and the flag is
    lowered. *)
Lemma handleReserve_thrown (p : Props) (s : State) (w : World) (e : JsError) :
  truthy (walletAddress p) = true ->
  completion (reserveAttempt p s w) = Throw e ->
  handleReserve p s w =
  ([SetLoading true] ++ trace (reserveAttempt p s w)
   ++ [ConsoleError "Transaction failed:" e; Alert (errorAlert e);
       SetLoading false],
   Normal tt).
Proof.
  intros Ht Hthrow. unfold handleReserve. rewrite Ht. cbn [negb].
  destruct (reserveAttempt p s w) as [t c]. cbn in Hthrow. subst c.
  unfold try_catch_finally, bind, emit, trace. cbn.
  rewrite <- app_assoc. reflexivity.
Qed.

(** C8. Whenever the reservation attempt throws, the user sees exactly one
    alert, and it falls in exactly one of the three classes: the
    insufficient-funds message for the code INSUFFICIENT_FUNDS, the
    call-rejection message for the code CALL_EXCEPTION, and otherwise the
    error's reason, else its message, else the fixed fallback text. *)
Theorem thrown_error_is_surfaced_once
    (p : Props) (s : State) (w : World) (wallet : string) (e : JsError) :
  Connected p wallet ->
  completion (reserveAttempt p s w) = Throw e ->
  alerts (trace (handleReserve p s w)) = [errorAlert e]
  /\ surfaced_as e (errorAlert e)
  /\ (forall msg, surfaced_as e msg -> msg = errorAlert e).
Proof.
  intros Hc Hthrow.
  split; [|split; [apply errorAlert_surfaced | apply surfaced_as_unique]].
  apply connected_truthy in Hc as [Ht _].
  rewrite (handleReserve_thrown p s w e) by assumption.
  unfold trace at 1. cbn [fst].
  rewrite (alerts_app [SetLoading true]), alerts_app.
  rewrite (reserveAttempt_throw_silent p s w e) by assumption.
  reflexivity.
Qed.

Lemma thrown_error_is_surfaced_once_witness :
  alerts (trace (handleReserve propsA repeatState decliningWorld))
  = ["rejected"].
Proof.
  pose proof (thrown_error_is_surfaced_once
                propsA repeatState decliningWorld "0xA" userRejected) as H.
  destruct H as (H & _).
  - split; [reflexivity | discriminate].
  - reflexivity.
  - exact H.
Defined.

Example insufficient_funds_alert :
  errorAlert (mkJsError (Some "INSUFFICIENT_FUNDS") (Some "r") (Some "m"))
  = "You do not have enough ETH to complete this reservation. Please check your balance and try again.".
Proof. reflexivity. Qed.

Example call_exception_alert :
  errorAlert (mkJsError (Some "CALL_EXCEPTION") (Some "r") (Some "m"))
  = "Transaction failed. Please ensure you have enough funds.".
Proof. reflexivity. Qed.

Example empty_reason_falls_to_message :
  errorAlert (mkJsError None (Some "") (Some "m")) = "m".
Proof. reflexivity. Qed.

Example bare_error_gets_fallback :
  errorAlert (mkJsError None None None)
  = "An unexpected error occurred. Please try again.".
Proof. reflexivity. Qed.

(** ** Optimistic update and the loading flag *)

(** Past the wallet check, the last thing the handler does is lower the
    flag. *)
Lemma handleReserve_ends_idle (p : Props) (s : State) (w : World) :
  truthy (walletAddress p) = true ->
  last (trace (handleReserve p s w)) = Some (SetLoading false).
Proof.
  intros Ht. unfold handleReserve. rewrite Ht. cbn [negb].
  destruct (reserveAttempt p s w) as [t c].
  unfold try_catch_finally, bind, emit, trace.
  destruct c as [[]| |e]; cbn.
  - change (SetLoading true :: t ++ [SetLoading false])
      with ((SetLoading true :: t) ++ [SetLoading false]).
    apply last_snoc.
  - change (SetLoading true :: t ++ [SetLoading false])
      with ((SetLoading true :: t) ++ [SetLoading false]).
    apply last_snoc.
  - rewrite app_comm_cons. apply last_snoc.
Qed.

(** C9. Once the transfer is confirmed the handler sets the whitelist and
    the running total and only then calls [updateWhitelist]. If that call
    throws, the handler logs and alerts and touches neither again: the
    whitelist and the total keep their updated values. Every way out of
    the [try] lowers [loading] as its last effect; the one exit before the
    [try], for a missing wallet, never raised it, so after any call made
    from a reachable state [loading] is false. *)
Theorem optimistic_update_is_kept (p : Props) (s : State) (w : World) :
  (truthy (walletAddress p) = true ->
   last (trace (handleReserve p s w)) = Some (SetLoading false)
   /\ loading (step s (ReserveClicked p w)) = false)
  /\ (reachable s -> loading (step s (ReserveClicked p w)) = false)
  /\ (forall wallet amount,
        Connected p wallet -> OnApeChain w ->
        totalReserved s + selectedCount s <= cap ->
        PaymentConfirmed p s w amount ->
        let q := selectedCount s in
        let merged := updatedWhitelist (whitelist s) wallet q in
        let t := trace (handleReserve p s w) in
        take 9 t =
          [SetLoading true; NewBrowserProvider; GetSigner; GetNetwork;
           SendTransaction (recipientAddress p) amount; TxWait;
           SetWhitelist merged; SetTotalReservedPlus q;
           UpdateWhitelist wallet q]
        /\ forall e,
             updateWhitelist w wallet q = Rejected e ->
             drop 9 t =
               [ConsoleError "Transaction failed:" e; Alert (errorAlert e);
                SetLoading false]
             /\ whitelist (step s (ReserveClicked p w)) = merged
             /\ totalReserved (step s (ReserveClicked p w))
                = totalReserved s + q).
Proof.
  destruct (handleReserve_state p s w) as (_ & _ & Hl & _).
  split; [|split].
  - intros Ht. split; [apply handleReserve_ends_idle; assumption|].
    rewrite Hl, Ht. reflexivity.
  - intros Hreach. destruct (reachable_invariant s Hreach) as (Hidle & _).
    rewrite Hl. destruct (truthy _); [reflexivity | assumption].
  - intros wallet amount Hc Hw Hcap Hpay q merged t. subst t.
    rewrite (step_confirmed p s w wallet amount) by assumption.
    rewrite (handleReserve_confirmed p s w wallet amount) by assumption.
    split; [reflexivity|].
    intros e He. fold q. rewrite He. repeat split.
Qed.

Lemma optimistic_update_is_kept_witness :
  whitelist (step loadedState (ReserveClicked propsA storeDownWorld))
  = [ mkEntry "0xA" 3 ]
  /\ totalReserved (step loadedState (ReserveClicked propsA storeDownWorld)) = 3
  /\ loading (step loadedState (ReserveClicked propsA storeDownWorld)) = false.
Proof.
  destruct (optimistic_update_is_kept propsA loadedState storeDownWorld)
    as (_ & Hidle & Hkept).
  destruct (Hkept "0xA" 2000000000000000000) as (_ & Hrej).
  - split; [reflexivity | discriminate].
  - repeat split.
  - cbn. unfold cap. lia.
  - repeat split.
  - destruct (Hrej storeDown) as (_ & Hwl & Htot); [reflexivity|].
    split; [exact Hwl|]. split; [exact Htot|].
    apply Hidle. unfold loadedState.
    apply reach_step; cbn; auto using reach_init.
Defined.

Example store_failure_alert :
  alerts (trace (handleReserve propsA repeatState storeDownWorld))
  = ["The service is currently unavailable."].
Proof. reflexivity. Qed.

(** ** Short lists *)

Lemma toggleButton_render (p : Props) (s : State) :
  toggleButton (render p s) =
  if (10 <? length (whitelist s))%nat
  then Some (if expanded s then "Show Less" else "Show All")
  else None.
Proof. reflexivity. Qed.

(** C10. For every whitelist of ten entries or fewer the collapsed view is
    the whole list, so toggling [expanded] changes nothing on display; and
    the toggle button is rendered exactly when the whitelist has more than
    ten entries. *)
Theorem short_list_ignores_expanded (s : State) (p : Props) :
  (length (whitelist s) <= 10)%nat ->
  slice_last 10 (whitelist s) = whitelist s
  /\ displayedReservations s = whitelist s
  /\ displayedReservations (step s Toggled) = displayedReservations s
  /\ toggleButton (render p s) = None
  /\ forall s' p',
       is_Some (toggleButton (render p' s'))
       <-> (10 < length (whitelist s'))%nat.
Proof.
  intros Hshort.
  pose proof (slice_last_short 10 (whitelist s) Hshort) as Hslice.
  split; [exact Hslice|].
  assert (forall b,
            displayedReservations
              (mkState (selectedCount s) (whitelist s) (totalReserved s)
                 (loading s) b) = whitelist s) as Hany.
  { intros b. unfold displayedReservations. cbn.
    destruct b; [reflexivity | exact Hslice]. }
  split; [destruct s; apply Hany|].
  split; [rewrite step_toggled, Hany; destruct s; symmetry; apply Hany|].
  split.
  - rewrite toggleButton_render.
    destruct (Nat.ltb_spec 10 (length (whitelist s))); [lia | reflexivity].
  - intros s' p'. rewrite toggleButton_render.
    destruct (Nat.ltb_spec 10 (length (whitelist s'))) as [Hlt|Hge].
    + split; [intros _; exact Hlt | intros _; eexists; reflexivity].
    + split; [intros [x Hx]; discriminate Hx | lia].
Qed.

Lemma short_list_ignores_expanded_witness :
  displayedReservations (step repeatState Toggled)
  = displayedReservations repeatState
  /\ toggleButton (render propsA repeatState) = None.
Proof.
  destruct (short_list_ignores_expanded repeatState propsA)
    as (_ & _ & Hsame & Hnone & _).
  - cbn. lia.
  - split; [exact Hsame | exact Hnone].
Defined.

Example long_list_shows_toggle :
  toggleButton (render propsA twelveState) = Some "Show All"
  /\ toggleButton (render propsA (step twelveState Toggled)) = Some "Show Less".
Proof. split; reflexivity. Qed.

(** * Further properties of the component *)

(** ** Every call follows one of the paths *)

Lemma handleReserve_path (p : Props) (s : State) (w : World) :
  ReservePath p s w (handleReserve p s w).
Proof.
  destruct (truthy (walletAddress p)) eqn:Ht.
  2: { rewrite handleReserve_disconnected by assumption.
       apply path_no_wallet. assumption. }
  destruct (truthy_inv _ Ht) as (wallet & Hwallet & Hne).
  assert (Connected p wallet) as Hc by (split; assumption).
  destruct (connected_truthy p wallet Hc) as [_ Hd].
  unfold_proc. rewrite Ht. cbn.
  destruct (newBrowserProvider w) as [[]|e] eqn:Hp; cbn;
    [|apply path_no_provider; assumption].
  destruct (getSigner w) as [[]|e] eqn:Hs; cbn;
    [|apply path_no_signer; assumption].
  destruct (getNetwork w) as [chainId|e] eqn:Hn; cbn;
    [|apply path_no_network; assumption].
  destruct (Z.eqb_spec chainId apeChainId) as [->|Hchain]; cbn.
  2: { destruct (switchToApeChain w) as [[]|e] eqn:Hsw; cbn.
       - eapply path_switched; eassumption.
       - eapply path_switch_failed; eassumption. }
  assert (OnApeChain w) as Hw by (repeat split; assumption).
  fold cap.
  destruct (Z.gtb_spec (totalReserved s + selectedCount s) cap) as [Hover|Hunder];
    cbn.
  { apply path_over_cap; [assumption | assumption | lia]. }
  destruct (parseEther (toString (selectedCount s * 2))) as [amount|e] eqn:Ha;
    cbn; [|apply path_bad_amount; assumption].
  destruct (sendTransaction w (recipientAddress p) amount) as [[]|e] eqn:Htx;
    cbn; [|apply path_not_sent; assumption].
  destruct (txWait w) as [[]|e] eqn:Hwait; cbn;
    [|apply path_not_confirmed; assumption].
  rewrite Hd.
  pose proof (path_confirmed p s w wallet amount Hc Hw Hunder
                (conj Ha (conj Htx Hwait))) as Hpath.
  destruct (updateWhitelist w wallet (selectedCount s)) as [[]|e]; exact Hpath.
Qed.

(** Splits a goal about a call of the handler along its paths. *)
Ltac by_path p s w :=
  let Hpath := fresh "Hpath" in
  let run := fresh "run" in
  let Hrun := fresh "Hrun" in
  pose proof (handleReserve_path p s w) as Hpath;
  unfold step, handle in *;
  remember (handleReserve p s w) as run eqn:Hrun;
  destruct Hpath; unfold caught, trace, completion in *; cbn in *.

(** Goes through the members of a trace that is written out. *)
Ltac members H :=
  repeat (apply elem_of_cons in H as [H|H]; [try subst; try discriminate|]);
  try (apply elem_of_nil in H; contradiction).

(** ** Before the transfer *)

(** X1. Without a wallet address, null or empty, the handler shows the
    connect alert and returns: it calls no collaborator and leaves every
    state cell, the loading flag included, as it was. *)
Theorem no_wallet_only_asks_to_connect (p : Props) (s : State) (w : World) :
  walletAddress p = None \/ walletAddress p = Some "" ->
  handleReserve p s w
    = ([Alert "Please connect your wallet to proceed."], Return)
  /\ sdkCalls (trace (handleReserve p s w)) = []
  /\ step s (ReserveClicked p w) = s.
Proof.
  intros Hnone.
  assert (truthy (walletAddress p) = false) as Ht
    by (destruct Hnone as [-> | ->]; reflexivity).
  unfold step, handle.
  rewrite handleReserve_disconnected by assumption.
  repeat split.
Qed.

Lemma no_wallet_only_asks_to_connect_witness :
  step loadedState (ReserveClicked propsEmptyWallet okWorld) = loadedState
  /\ step loadedState (ReserveClicked propsNoWallet okWorld) = loadedState.
Proof.
  split.
  - apply (no_wallet_only_asks_to_connect propsEmptyWallet loadedState okWorld).
    right. reflexivity.
  - apply (no_wallet_only_asks_to_connect propsNoWallet loadedState okWorld).
    left. reflexivity.
Defined.

(** X2. On any chain but 33139 the handler asks for the switch and stops,
    whatever the cap test would have said: the collaborators called are
    the provider, the signer, the network and the switch helper, nothing
    is shown when the switch resolves and its error is shown when it
    rejects, and the state is the old one with [loading] false. *)
Theorem wrong_chain_only_switches
    (p : Props) (s : State) (w : World) (wallet : string) (chainId : Z) :
  Connected p wallet ->
  newBrowserProvider w = Resolved tt -> getSigner w = Resolved tt ->
  getNetwork w = Resolved chainId -> chainId <> 33139 ->
  sdkCalls (trace (handleReserve p s w))
    = [NewBrowserProvider; GetSigner; GetNetwork; SwitchToApeChain]
  /\ alerts (trace (handleReserve p s w))
     = match switchToApeChain w with
       | Resolved _ => []
       | Rejected e => [errorAlert e]
       end
  /\ step s (ReserveClicked p w)
     = {| selectedCount := selectedCount s; whitelist := whitelist s;
          totalReserved := totalReserved s; loading := false;
          expanded := expanded s |}.
Proof.
  intros Hc Hp Hs Hn Hne. unfold step, handle.
  rewrite (handleReserve_wrong_chain p s w wallet chainId) by assumption.
  destruct (switchToApeChain w); repeat split.
Qed.

Lemma wrong_chain_only_switches_witness :
  alerts (trace (handleReserve propsA nearlyFullState otherChainWorld)) = []
  /\ whitelist (step nearlyFullState (ReserveClicked propsA otherChainWorld))
     = [ mkEntry "0xB" 330 ].
Proof.
  destruct (wrong_chain_only_switches
              propsA nearlyFullState otherChainWorld "0xA" 1)
    as (_ & Halerts & Hstate).
  - split; [reflexivity | discriminate].
  - reflexivity.
  - reflexivity.
  - reflexivity.
  - discriminate.
  - split; [exact Halerts | rewrite Hstate; reflexivity].
Defined.

(** ** Nothing is recorded without a confirmed payment *)

(** X3. If a call of the handler writes the whitelist, the running total
    or the remote store, or leaves the whitelist or the total different
    from what it was, then a wallet was connected on the required chain,
    the request fitted under the cap, and the transfer was sent and
    confirmed. *)
Theorem no_record_without_confirmed_payment
    (p : Props) (s : State) (w : World) :
  (exists ef, ef ∈ trace (handleReserve p s w)
              /\ updates_reservations ef = true)
  \/ whitelist (step s (ReserveClicked p w)) <> whitelist s
  \/ totalReserved (step s (ReserveClicked p w)) <> totalReserved s ->
  exists wallet amount,
    Connected p wallet /\ OnApeChain w
    /\ totalReserved s + selectedCount s <= cap
    /\ PaymentConfirmed p s w amount.
Proof.
  intros Hrec. by_path p s w.
  11: { exists wallet, amount. repeat split; assumption || apply H || apply H0
                                      || apply H2. }
  all: exfalso; destruct Hrec as [(ef & Hin & Hup)|[Hwl|Htot]];
    [members Hin | apply Hwl; reflexivity | apply Htot; reflexivity].
Qed.

Lemma no_record_without_confirmed_payment_witness :
  exists wallet amount,
    Connected propsA wallet /\ OnApeChain okWorld
    /\ totalReserved repeatState + selectedCount repeatState <= cap
    /\ PaymentConfirmed propsA repeatState okWorld amount.
Proof.
  apply no_record_without_confirmed_payment.
  right. left. cbn. discriminate.
Defined.

(** ** What the user is shown *)

(** X4. As long as what the collaborators throw are error values on which
    [code], [reason] and [message] can be read (anything but [null] and
    [undefined], see [JsError]), the promise of the handler never
    rejects: every such error is caught. Each call then shows at most one
    alert, and it shows none exactly when a connected wallet on another
    chain was switched successfully. *)
Theorem handleReserve_never_rejects (p : Props) (s : State) (w : World) :
  (forall e, completion (handleReserve p s w) <> Throw e)
  /\ (length (alerts (trace (handleReserve p s w))) <= 1)%nat
  /\ (alerts (trace (handleReserve p s w)) = []
      <-> exists wallet chainId,
            Connected p wallet
            /\ newBrowserProvider w = Resolved tt
            /\ getSigner w = Resolved tt
            /\ getNetwork w = Resolved chainId /\ chainId <> apeChainId
            /\ switchToApeChain w = Resolved tt).
Proof.
  split; [|split].
  - intros e. by_path p s w; discriminate.
  - by_path p s w; try lia.
    destruct (updateWhitelist w wallet (selectedCount s)); cbn; lia.
  - split.
    + intros Hnone. by_path p s w; try discriminate Hnone.
      * destruct (truthy_inv _ H) as (wallet & Hwallet & Hne).
        exists wallet, chainId. repeat split; assumption.
      * destruct (updateWhitelist w wallet (selectedCount s));
          discriminate Hnone.
    + intros (wallet & chainId & Hc & Hp & Hs & Hn & Hne & Hsw).
      rewrite (handleReserve_wrong_chain p s w wallet chainId) by assumption.
      rewrite Hsw. reflexivity.
Qed.

(** ** The transfer, from any reachable state *)

(** X5. From a reachable state, whatever the props and the collaborators'
    answers, a transfer that the handler submits goes to
    [recipientAddress] and is worth twice the selected quantity in ether,
    hence between 2 and 20 ether. *)
Theorem transfer_bounded_in_reachable_states
    (s : State) (p : Props) (w : World) (to : string) (value : Z) :
  reachable s ->
  SendTransaction to value ∈ trace (handleReserve p s w) ->
  to = recipientAddress p
  /\ value = selectedCount s * 2 * ether
  /\ 2 * ether <= value <= 20 * ether.
Proof.
  intros Hreach Hin.
  destruct (reachable_invariant s Hreach) as (_ & Hq & _).
  pose proof (parseEther_quantity (selectedCount s) Hq) as Hamount.
  assert (forall amount,
            parseEther (toString (selectedCount s * 2)) = Resolved amount ->
            SendTransaction to value
              = SendTransaction (recipientAddress p) amount ->
            to = recipientAddress p
            /\ value = selectedCount s * 2 * ether
            /\ 2 * ether <= value <= 20 * ether) as Hsent.
  { intros amount Ha Heq. rewrite Hamount in Ha.
    injection Ha as <-. injection Heq as -> ->.
    unfold ether. repeat split; lia. }
  by_path p s w.
  1-8: exfalso; members Hin.
  - apply elem_of_cons in Hin as [Hin|Hin]; [discriminate|].
    do 3 (apply elem_of_cons in Hin as [Hin|Hin]; [discriminate|]).
    apply elem_of_cons in Hin as [Hin|Hin]; [eapply Hsent; eassumption|].
    exfalso; members Hin.
  - do 4 (apply elem_of_cons in Hin as [Hin|Hin]; [discriminate|]).
    apply elem_of_cons in Hin as [Hin|Hin]; [eapply Hsent; eassumption|].
    exfalso; members Hin.
  - do 4 (apply elem_of_cons in Hin as [Hin|Hin]; [discriminate|]).
    apply elem_of_cons in Hin as [Hin|Hin];
      [eapply Hsent; [apply H2 | eassumption]|].
    exfalso.
    do 4 (apply elem_of_cons in Hin as [Hin|Hin]; [discriminate|]).
    apply elem_of_app in Hin as [Hin|Hin].
    + destruct (updateWhitelist w wallet (selectedCount s)); cbn in Hin;
        members Hin.
    + members Hin.
Qed.

Lemma transfer_bounded_in_reachable_states_witness :
  "0xR" = recipientAddress propsA
  /\ 2000000000000000000 = selectedCount loadedState * 2 * ether
  /\ 2 * ether <= 2000000000000000000 <= 20 * ether.
Proof.
  apply (transfer_bounded_in_reachable_states loadedState propsA okWorld).
  - unfold loadedState. apply reach_step; cbn; auto using reach_init.
  - cbn. do 4 apply list_elem_of_further. apply list_elem_of_here.
Defined.

(** ** Entries are never removed *)

Lemma updatedWhitelist_keeps_addresses (wl : list Entry) (wallet : string)
    (q : Z) :
  addresses wl `prefix_of` addresses (updatedWhitelist wl wallet q).
Proof.
  destruct (decide (wallet ∈ addresses wl)) as [Hin|Hout].
  - rewrite updatedWhitelist_repeat by assumption.
    rewrite addresses_bump. reflexivity.
  - rewrite updatedWhitelist_new by assumption.
    unfold addresses. rewrite map_app. apply prefix_app_r. reflexivity.
Qed.

Lemma updatedWhitelist_length (wl : list Entry) (wallet : string) (q : Z) :
  length (updatedWhitelist wl wallet q)
  = if decide (wallet ∈ addresses wl) then length wl else S (length wl).
Proof.
  destruct (decide (wallet ∈ addresses wl)) as [Hin|Hout].
  - rewrite updatedWhitelist_repeat by assumption. apply length_map.
  - rewrite updatedWhitelist_new by assumption.
    rewrite length_app. cbn. lia.
Qed.

Lemma updatedWhitelist_lookup (wl : list Entry) (wallet : string) (q : Z)
    (i : nat) (entry : Entry) :
  wl !! i = Some entry ->
  updatedWhitelist wl wallet q !! i = Some (bump wallet q entry).
Proof.
  intros Hi. destruct (decide (wallet ∈ addresses wl)) as [Hin|Hout].
  - rewrite updatedWhitelist_repeat by assumption.
    rewrite lookup_bump, Hi. reflexivity.
  - rewrite updatedWhitelist_new by assumption.
    rewrite lookup_app_l by (eapply lookup_lt_Some; eassumption).
    rewrite Hi. f_equal. symmetry. apply bump_other.
    intros Heq. apply Hout. unfold addresses. rewrite <- Heq.
    apply list_elem_of_fmap_2. eapply list_elem_of_lookup_2. eassumption.
Qed.

(** X6. No call of the handler removes or reorders entries: the old
    addresses are a prefix of the new ones, the list grows by one entry
    at most, and the entry at each old position keeps its address and
    either keeps its count or gains the selected quantity. The selected
    quantity and the display mode are never written. *)
Theorem handleReserve_never_removes_entries
    (p : Props) (s : State) (w : World) :
  let s' := step s (ReserveClicked p w) in
  addresses (whitelist s) `prefix_of` addresses (whitelist s')
  /\ (length (whitelist s) <= length (whitelist s')
      <= S (length (whitelist s)))%nat
  /\ (forall i entry,
        whitelist s !! i = Some entry ->
        exists entry',
          whitelist s' !! i = Some entry'
          /\ address entry' = address entry
          /\ (count entry' = count entry
              \/ count entry' = count entry + selectedCount s))
  /\ selectedCount s' = selectedCount s
  /\ expanded s' = expanded s.
Proof.
  intros s'. subst s'.
  destruct (handleReserve_state p s w) as (Hq & Hexp & _ & Hdata).
  destruct Hdata as [[Hwl _]|(_ & _ & Hwl & _)]; rewrite Hwl, Hq, Hexp.
  - split; [reflexivity|]. split; [lia|].
    split; [|split; reflexivity].
    intros i entry Hi. exists entry. auto.
  - split; [apply updatedWhitelist_keeps_addresses|].
    split; [rewrite updatedWhitelist_length; case_decide; lia|].
    split; [|split; reflexivity].
    intros i entry Hi. eexists.
    split; [apply updatedWhitelist_lookup; eassumption|].
    split; [apply bump_address|].
    unfold bump. destruct (String.eqb _ _); cbn; auto.
Qed.

(** ** Reservations add up *)

(** X7. Merging [q1] and then [q2] for the same address gives the list
    that merging [q1 + q2] at once gives, whether the address was on the
    list or not. *)
Theorem updatedWhitelist_twice (wl : list Entry) (wallet : string)
    (q1 q2 : Z) :
  updatedWhitelist (updatedWhitelist wl wallet q1) wallet q2
  = updatedWhitelist wl wallet (q1 + q2).
Proof.
  assert (forall entry,
            bump wallet q2 (bump wallet q1 entry)
            = bump wallet (q1 + q2) entry) as Hbump.
  { intros entry. unfold bump.
    destruct (String.eqb (address entry) wallet) eqn:E; cbn; rewrite E.
    - f_equal. lia.
    - reflexivity. }
  destruct (decide (wallet ∈ addresses wl)) as [Hin|Hout].
  - rewrite (updatedWhitelist_repeat wallet q1 wl) by assumption.
    rewrite updatedWhitelist_repeat by (rewrite addresses_bump; assumption).
    rewrite updatedWhitelist_repeat by assumption.
    rewrite map_map. apply map_ext. exact Hbump.
  - rewrite (updatedWhitelist_new wallet q1 wl) by assumption.
    rewrite updatedWhitelist_repeat.
    + rewrite map_app. cbn. rewrite bump_absent by assumption.
      rewrite bump_own by reflexivity. cbn.
      rewrite updatedWhitelist_new by assumption. reflexivity.
    + unfold addresses. rewrite map_app. cbn.
      apply elem_of_app. right. apply list_elem_of_here.
Qed.

(** ** At and under the cap *)

(** X8. In a reachable state whose running total has reached 333 nothing
    can be reserved: no call of the handler submits a transfer or writes
    to the store, the whitelist and the total stay as they are, the
    quantity select is disabled and the button reads Full. *)
Theorem sold_out_blocks_reservations (s : State) (p : Props) (w : World) :
  reachable s -> totalReserved s >= 333 ->
  (forall ef, ef ∈ trace (handleReserve p s w) ->
              match ef with
              | SendTransaction _ _ | UpdateWhitelist _ _ => False
              | _ => True
              end)
  /\ whitelist (step s (ReserveClicked p w)) = whitelist s
  /\ totalReserved (step s (ReserveClicked p w)) = totalReserved s
  /\ selectDisabled (render p s) = true
  /\ payButtonLabel (render p s) = "Full".
Proof.
  intros Hreach Hfull.
  destruct (reachable_invariant s Hreach) as (Hidle & Hq & _).
  assert (totalReserved s + selectedCount s > cap) as Hover
    by (unfold cap; lia).
  split; [|split; [|split; [|split]]].
  - intros ef Hin. by_path p s w; try (unfold cap in *; lia).
    all: members Hin; exact I.
  - destruct (handleReserve_state p s w) as (_ & _ & _ & Hdata).
    destruct Hdata as [[Hwl _]|(_ & Hcap & _)]; [assumption | lia].
  - destruct (handleReserve_state p s w) as (_ & _ & _ & Hdata).
    destruct Hdata as [[_ Htot]|(_ & Hcap & _)]; [assumption | lia].
  - unfold render. cbn [selectDisabled].
    destruct (Z.geb_spec (totalReserved s) cap) as [_|Hlt];
      [reflexivity | unfold cap in Hlt; lia].
  - unfold render. cbn [payButtonLabel]. rewrite Hidle.
    destruct (Z.geb_spec (totalReserved s) cap) as [_|Hlt];
      [reflexivity | unfold cap in Hlt; lia].
Qed.

Lemma sold_out_blocks_reservations_witness :
  whitelist (step soldOutState (ReserveClicked propsA okWorld))
  = whitelist soldOutState
  /\ payButtonLabel (render propsA soldOutState) = "Full".
Proof.
  destruct (sold_out_blocks_reservations soldOutState propsA okWorld)
    as (_ & Hwl & _ & _ & Hlabel).
  - unfold soldOutState. apply reach_step; cbn; auto using reach_init.
  - vm_compute. discriminate.
  - split; [exact Hwl | exact Hlabel].
Defined.

(** X9. The handler never sets the running total; its one write to it is
    the functional update of line 82, which adds the selected quantity
    and is made only when the total that the call read at line 58 plus
    that quantity is within 333. So for a quantity of the select, applied
    to whatever state [c] is current, the handler's effects never lower
    the total and raise it by ten at most; and they keep it within 333
    when the current total is not above the one the call read. (When it
    is above, as after a fetch that settled during the call, the cap can
    be passed: see [overrunState].) *)
Theorem handler_adds_to_total_once
    (s c : State) (p : Props) (w : World) :
  1 <= selectedCount s <= 10 ->
  let t := trace (handleReserve p s w) in
  (forall ef, ef ∈ t ->
     match ef with
     | SetTotalReserved _ => False
     | SetTotalReservedPlus q =>
         q = selectedCount s /\ totalReserved s + q <= 333
     | _ => True
     end)
  /\ totalReserved c <= totalReserved (commit c t) <= totalReserved c + 10
  /\ (totalReserved c <= totalReserved s -> totalReserved c <= 333 ->
      totalReserved (commit c t) <= 333).
Proof.
  intros Hq t. subst t. split; [|split].
  - intros ef Hin. by_path p s w.
    1-10: members Hin; exact I.
    do 7 (apply elem_of_cons in Hin as [Hin|Hin]; [subst ef; exact I|]).
    apply elem_of_cons in Hin as [Hin|Hin];
      [subst ef; split; [reflexivity | unfold cap in *; lia]|].
    apply elem_of_cons in Hin as [Hin|Hin]; [subst ef; exact I|].
    apply elem_of_app in Hin as [Hin|Hin].
    + destruct (updateWhitelist w wallet (selectedCount s)); cbn in Hin;
        members Hin; exact I.
    + members Hin. exact I.
  - by_path p s w; try lia.
    destruct (updateWhitelist w wallet (selectedCount s)); cbn; lia.
  - intros Hread Hunder. by_path p s w; try lia.
    destruct (updateWhitelist w wallet (selectedCount s)); cbn;
      unfold cap in *; lia.
Qed.

Lemma handler_adds_to_total_once_witness :
  totalReserved loadedState
  <= totalReserved
       (commit loadedState (trace (handleReserve propsA loadedState okWorld)))
  <= totalReserved loadedState + 10.
Proof.
  apply (handler_adds_to_total_once loadedState loadedState propsA okWorld).
  cbn. lia.
Defined.

Example total_passes_cap_when_fetch_settles_during_call :
  totalReserved tenSelectedState = 0
  /\ totalReserved overrunState = 343.
Proof. split; reflexivity. Qed.

(** ** The fetch *)

Lemma sumCounts_Permutation (l1 l2 : list Entry) :
  l1 ≡ₚ l2 -> sumCounts l1 = sumCounts l2.
Proof.
  induction 1 as [|e l1 l2 _ IH|e1 e2 l|l1 l2 l3 _ IH1 _ IH2].
  - reflexivity.
  - rewrite !sumCounts_cons, IH. reflexivity.
  - rewrite !sumCounts_cons. lia.
  - congruence.
Qed.

(** X10. The running total that a fetch leaves is the sum of all the
    fetched counts, so it does not depend on the order in which the store
    lists the entries. A fetch that fails shows no alert and leaves the
    state as it was. *)
Theorem loadWhitelist_total_ignores_order
    (s : State) (l1 l2 : list Entry) (e : JsError) :
  l1 ≡ₚ l2 ->
  totalReserved (step s (Mounted (Resolved l1)))
    = totalReserved (step s (Mounted (Resolved l2)))
  /\ total_in_sync (step s (Mounted (Resolved l1)))
  /\ step s (Mounted (Rejected e)) = s
  /\ alerts (trace (loadWhitelist (Rejected e))) = [].
Proof.
  intros Hperm. rewrite !step_mounted_resolved, step_mounted_rejected.
  unfold total_in_sync. cbn.
  split; [apply sumCounts_Permutation; assumption|]. repeat split.
Qed.

Lemma loadWhitelist_total_ignores_order_witness :
  totalReserved
    (step initialState
       (Mounted (Resolved [ mkEntry "0xA" 2; mkEntry "0xB" 330 ])))
  = totalReserved
      (step initialState
         (Mounted (Resolved [ mkEntry "0xB" 330; mkEntry "0xA" 2 ]))).
Proof.
  apply (loadWhitelist_total_ignores_order initialState _ _ storeDown).
  apply Permutation_swap.
Defined.

(** ** What the list shows *)

Lemma slice_last_snoc {A} (n : nat) (l : list A) (x : A) :
  (1 <= n)%nat -> slice_last n (l ++ [x]) = slice_last (n - 1) l ++ [x].
Proof.
  intros Hn. unfold slice_last. rewrite length_app. cbn.
  rewrite drop_app_le by lia. f_equal. f_equal. lia.
Qed.

Lemma displayed_last (s : State) (l : list Entry) (x : Entry) :
  whitelist s = l ++ [x] -> last (displayedReservations s) = Some x.
Proof.
  intros Hwl. unfold displayedReservations. rewrite Hwl.
  destruct (expanded s).
  - apply last_snoc.
  - rewrite slice_last_snoc by lia. apply last_snoc.
Qed.

Lemma displayed_nonempty (s : State) :
  whitelist s <> [] -> displayedReservations s <> [].
Proof.
  intros Hne. destruct (whitelist s) as [|e l] eqn:Hwl using rev_ind;
    [contradiction|].
  intros Hempty. pose proof (displayed_last s l e Hwl) as Hlast.
  rewrite Hempty in Hlast. discriminate Hlast.
Qed.

Lemma reservationItems_render (p : Props) (s : State) :
  reservationItems (render p s) =
  if (0 <? length (displayedReservations s))%nat
  then map reservationItem (displayedReservations s)
  else ["No reservations yet."].
Proof. reflexivity. Qed.

(** X11. A confirmed reservation by an address that had no entry is the
    last item on display, in the collapsed view as in the expanded one. *)
Theorem new_reservation_is_displayed_last
    (p : Props) (s : State) (w : World) (wallet : string) (amount : Z) :
  Connected p wallet -> OnApeChain w ->
  totalReserved s + selectedCount s <= cap ->
  PaymentConfirmed p s w amount ->
  wallet ∉ addresses (whitelist s) ->
  let s' := step s (ReserveClicked p w) in
  last (displayedReservations s') = Some (mkEntry wallet (selectedCount s))
  /\ last (reservationItems (render p s'))
     = Some (reservationItem (mkEntry wallet (selectedCount s))).
Proof.
  intros Hc Hw Hcap Hpay Hnew s'.
  assert (whitelist s'
          = whitelist s ++ [ mkEntry wallet (selectedCount s) ]) as Hwl.
  { subst s'. rewrite (step_confirmed p s w wallet amount) by assumption.
    cbn. apply updatedWhitelist_new. assumption. }
  pose proof (displayed_last s' _ _ Hwl) as Hlast.
  split; [exact Hlast|].
  rewrite reservationItems_render.
  destruct (displayedReservations s') as [|e l]; [discriminate Hlast|].
  cbn [length Nat.ltb Nat.leb].
  change (map reservationItem (e :: l)) with (reservationItem <$> (e :: l)).
  rewrite fmap_last, Hlast. reflexivity.
Qed.

Lemma new_reservation_is_displayed_last_witness :
  last (displayedReservations (step twelveState (ReserveClicked propsA okWorld)))
  = Some (mkEntry "0xA" 1).
Proof.
  destruct (new_reservation_is_displayed_last
              propsA twelveState okWorld "0xA" 2000000000000000000)
    as (Hlast & _).
  - split; [reflexivity | discriminate].
  - repeat split.
  - cbn. unfold cap. lia.
  - repeat split.
  - vm_compute. intros Hin.
    repeat (apply elem_of_cons in Hin as [Hin|Hin]; [discriminate Hin|]).
    inversion Hin.
  - exact Hlast.
Defined.

(** X12. The placeholder line is rendered exactly when the whitelist is
    empty; otherwise one line is rendered per displayed entry, which makes
    all of them in the expanded view and ten at most in the collapsed
    one. *)
Theorem reservation_list_rendering (p : Props) (s : State) :
  reservationItems (render p s)
    = match whitelist s with
      | [] => ["No reservations yet."]
      | _ => map reservationItem (displayedReservations s)
      end
  /\ length (reservationItems (render p s))
     = match whitelist s with
       | [] => 1%nat
       | _ => if expanded s then length (whitelist s)
              else Nat.min 10 (length (whitelist s))
       end.
Proof.
  rewrite reservationItems_render.
  destruct (whitelist s) as [|e l] eqn:Hwl.
  - unfold displayedReservations. rewrite Hwl.
    destruct (expanded s); split; reflexivity.
  - assert (displayedReservations s <> []) as Hne
      by (apply displayed_nonempty; rewrite Hwl; discriminate).
    destruct (displayedReservations s) as [|d ds] eqn:Hd; [contradiction|].
    cbn [length Nat.ltb Nat.leb]. split; [reflexivity|].
    rewrite length_map, <- Hd. unfold displayedReservations. rewrite Hwl.
    destruct (expanded s); [reflexivity|].
    exact (slice_last_length 10 (e :: l)).
Qed.

(** ** A fetch that settles during a reservation *)

(** X13. The handler writes the whitelist it computed from its own render
    and adds to whatever the total is. So when the fetch settles while a
    reservation awaits the signer, the network, the transfer or its
    confirmation, the confirmed reservation replaces
    the fetched list by the pre-fetch list with the merge, while the total
    becomes the fetched sum plus the quantity; and when the fetch settles
    while the remote write is awaited, the fetched list and its sum
    replace what the reservation had set. *)
Theorem fetch_during_reservation
    (p : Props) (s : State) (w : World) (wallet : string) (amount : Z)
    (fetched : list Entry) (k : nat) :
  Connected p wallet -> OnApeChain w ->
  totalReserved s + selectedCount s <= cap ->
  PaymentConfirmed p s w amount ->
  (3 <= k <= 6)%nat ->
  let early := reserveAcrossFetch p s w (Resolved fetched) k in
  let late := reserveAcrossFetch p s w (Resolved fetched) 9 in
  whitelist early = updatedWhitelist (whitelist s) wallet (selectedCount s)
  /\ totalReserved early = sumCounts fetched + selectedCount s
  /\ whitelist late = fetched
  /\ totalReserved late = sumCounts fetched.
Proof.
  intros Hc Hw Hcap Hpay Hk early late. subst early late.
  unfold reserveAcrossFetch.
  rewrite (handleReserve_confirmed p s w wallet amount) by assumption.
  unfold trace, loadWhitelist, try_catch, bind, call, emit, commit. cbn [fst].
  split; [|split; [|split]].
  3,4: cbn; destruct (updateWhitelist w wallet (selectedCount s));
    reflexivity.
  all: do 7 (destruct k as [|k];
             [try lia; cbn;
              destruct (updateWhitelist w wallet (selectedCount s));
              reflexivity|]); lia.
Qed.

Lemma fetch_during_reservation_witness :
  whitelist
    (reserveAcrossFetch propsA initialState okWorld
       (Resolved [ mkEntry "0xB" 330 ]) 5)
  = [ mkEntry "0xA" 1 ]
  /\ totalReserved
       (reserveAcrossFetch propsA initialState okWorld
          (Resolved [ mkEntry "0xB" 330 ]) 5)
     = 331.
Proof.
  destruct (fetch_during_reservation
              propsA initialState okWorld "0xA" 2000000000000000000
              [ mkEntry "0xB" 330 ] 5)
    as (Hwl & Htot & _).
  - split; [reflexivity | discriminate].
  - repeat split.
  - cbn. unfold cap. lia.
  - repeat split.
  - lia.
  - split; [exact Hwl | exact Htot].
Defined.

(** ** The order of the calls *)

(** X14. The collaborators are called in one fixed order, each call made
    only once the one before it has answered: the provider, the signer,
    the network, and then either the chain switch alone or the transfer
    to [recipientAddress], its confirmation and the remote write for the
    connected wallet and the selected quantity. Every call of the handler
    makes an initial stretch of one of these two sequences. *)
Theorem collaborators_called_in_order (p : Props) (s : State) (w : World) :
  exists amount,
    sdkCalls (trace (handleReserve p s w))
      `prefix_of` [NewBrowserProvider; GetSigner; GetNetwork;
                   SwitchToApeChain]
    \/ sdkCalls (trace (handleReserve p s w))
         `prefix_of` [NewBrowserProvider; GetSigner; GetNetwork;
                      SendTransaction (recipientAddress p) amount; TxWait;
                      UpdateWhitelist (default "" (walletAddress p))
                        (selectedCount s)].
Proof.
  by_path p s w.
  1-8: exists 0; left; eexists; reflexivity.
  1-2: exists amount; right; eexists; reflexivity.
  exists amount. right.
  destruct (connected_truthy p wallet H) as [_ ->].
  exists []. destruct (updateWhitelist w wallet (selectedCount s));
    reflexivity.
Qed.

(** ** Counts *)

(** X15. From a reachable state in which every entry has a positive
    count, every entry still has a positive count after a call of the
    handler. *)
Theorem counts_stay_positive (s : State) (p : Props) (w : World) :
  reachable s ->
  Forall (fun entry => 0 < count entry) (whitelist s) ->
  Forall (fun entry => 0 < count entry)
         (whitelist (step s (ReserveClicked p w))).
Proof.
  intros Hreach Hpos.
  destruct (reachable_invariant s Hreach) as (_ & Hq & _).
  destruct (handleReserve_state p s w) as (_ & _ & _ & Hdata).
  destruct Hdata as [[Hwl _]|(_ & _ & Hwl & _)]; rewrite Hwl;
    [assumption|].
  apply Forall_lookup. intros i entry' Hi.
  destruct (whitelist s !! i) as [entry|] eqn:Hold.
  - rewrite (updatedWhitelist_lookup _ _ _ _ _ Hold) in Hi.
    injection Hi as <-.
    pose proof (proj1 (Forall_lookup _ _) Hpos i entry Hold) as Hentry.
    cbn in Hentry. unfold bump. destruct (String.eqb _ _); cbn; lia.
  - destruct (decide (default "" (walletAddress p) ∈ addresses (whitelist s)))
      as [Hin|Hout].
    + rewrite updatedWhitelist_repeat in Hi by assumption.
      rewrite lookup_bump, Hold in Hi. discriminate Hi.
    + rewrite updatedWhitelist_new in Hi by assumption.
      apply lookup_ge_None in Hold.
      rewrite lookup_app_r in Hi by assumption.
      destruct (i - length (whitelist s))%nat; cbn in Hi;
        [injection Hi as <-; cbn; lia | discriminate Hi].
Qed.

Lemma counts_stay_positive_witness :
  Forall (fun entry => 0 < count entry)
         (whitelist (step loadedState (ReserveClicked propsB okWorld))).
Proof.
  apply counts_stay_positive.
  - unfold loadedState. apply reach_step; cbn; auto using reach_init.
  - vm_compute. constructor; [reflexivity | constructor].
Defined.

(** ** Along a whole history *)

Lemma step_keeps_model (s : State) (ev : Event) :
  NoDup (addresses (whitelist s)) /\ total_in_sync s
  /\ sumCounts (whitelist s) <= cap ->
  store_respects_model ev ->
  NoDup (addresses (whitelist (step s ev))) /\ total_in_sync (step s ev)
  /\ sumCounts (whitelist (step s ev)) <= cap.
Proof.
  unfold total_in_sync. intros (Hnd & Hsync & Hsum) Hev.
  destruct ev as [[fetched|e]| v | | p w]; try (repeat split; assumption).
  - destruct Hev as [Hnd' Hsum']. rewrite step_mounted_resolved. cbn.
    repeat split; assumption.
  - destruct (handleReserve_state p s w) as (_ & _ & _ & Hdata).
    destruct Hdata as [[Hwl Htot]|(_ & Hcap & Hwl & Htot)];
      rewrite Hwl, Htot.
    + repeat split; assumption.
    + rewrite sumCounts_updatedWhitelist by assumption.
      split; [apply NoDup_updatedWhitelist; assumption|]. split; lia.
Qed.

(** X16. Take a history of fetches, selections, toggles and handler calls
    in which each event is handled to completion before the next one
    starts, so that no fetch settles during a call of the handler, and in
    which every answer of the store has one entry per address at most and
    counts summing to 333 at most. The state it leads to has a whitelist
    with one entry per address at most, counts summing to 333 at most, a
    running total equal to that sum, and a displayed total available that
    is not negative. (Without the first condition all but the first of
    these can fail: see [overrunState].) *)
Theorem data_model_kept_along_history (evs : list Event) (p : Props) :
  Forall store_respects_model evs ->
  NoDup (addresses (whitelist (runEvents evs)))
  /\ sumCounts (whitelist (runEvents evs)) <= 333
  /\ totalReserved (runEvents evs) = sumCounts (whitelist (runEvents evs))
  /\ 0 <= totalAvailable (render p (runEvents evs)).
Proof.
  intros Hevs. unfold runEvents.
  assert (NoDup (addresses (whitelist initialState))
          /\ total_in_sync initialState
          /\ sumCounts (whitelist initialState) <= cap) as Hinit.
  { cbn. repeat split; [apply NoDup_nil_2 | discriminate]. }
  revert Hinit. generalize initialState as s.
  induction Hevs as [|ev evs Hev _ IH]; intros s Hs; cbn [fold_left].
  - destruct Hs as (Hnd & Hsync & Hsum). unfold total_in_sync in Hsync.
    cbn. unfold cap in *. repeat split; try assumption. lia.
  - apply IH. apply step_keeps_model; assumption.
Qed.

Lemma data_model_kept_along_history_witness :
  NoDup (addresses
           (whitelist
              (runEvents [Mounted (Resolved [ mkEntry "0xA" 2 ]); Selected 3;
                          ReserveClicked propsA okWorld])))
  /\ totalReserved
       (runEvents [Mounted (Resolved [ mkEntry "0xA" 2 ]); Selected 3;
                   ReserveClicked propsA okWorld]) = 5.
Proof.
  destruct (data_model_kept_along_history
              [Mounted (Resolved [ mkEntry "0xA" 2 ]); Selected 3;
               ReserveClicked propsA okWorld] propsA)
    as (Hnd & _ & Htot & _).
  - constructor.
    { split; [vm_compute; apply NoDup_singleton | vm_compute; discriminate]. }
    constructor; [exact I|]. constructor; [exact I|]. constructor.
  - split; [exact Hnd | rewrite Htot; reflexivity].
Defined.

(** ** The button and the transfer *)

(** X17. In a reachable state with room under the cap the button reads
    Pay, the amount and TBD ETH, and the amount it names is the one that
    is charged: [parseEther] of it is the value of any transfer the
    handler submits from that state. *)
Theorem button_names_the_amount_charged
    (s : State) (p : Props) (w : World) :
  reachable s -> totalReserved s < 333 ->
  exists shown,
    payButtonLabel (render p s) = ("Pay " ++ shown ++ "TBD ETH")%string
    /\ parseEther shown = Resolved (selectedCount s * 2 * ether)
    /\ forall to value,
         SendTransaction to value ∈ trace (handleReserve p s w) ->
         parseEther shown = Resolved value.
Proof.
  intros Hreach Hroom.
  destruct (reachable_invariant s Hreach) as (Hidle & Hq & _).
  pose proof (parseEther_quantity (selectedCount s) Hq) as Hamount.
  exists (toString (selectedCount s * 2)).
  split; [|split; [exact Hamount|]].
  - unfold render. cbn [payButtonLabel]. rewrite Hidle.
    destruct (Z.geb_spec (totalReserved s) cap) as [Hfull|_];
      [unfold cap in Hfull; lia | reflexivity].
  - intros to value Hin. rewrite Hamount. f_equal. symmetry.
    assert (forall amount,
              parseEther (toString (selectedCount s * 2)) = Resolved amount ->
              SendTransaction to value
                = SendTransaction (recipientAddress p) amount ->
              value = selectedCount s * 2 * ether) as Hsent.
    { intros amount Ha Heq. rewrite Hamount in Ha.
      injection Ha as <-. injection Heq as _ ->. reflexivity. }
    clear Hamount. by_path p s w.
    1-8: exfalso; members Hin.
    + do 4 (apply elem_of_cons in Hin as [Hin|Hin]; [discriminate|]).
      apply elem_of_cons in Hin as [Hin|Hin]; [eapply Hsent; eassumption|].
      exfalso; members Hin.
    + do 4 (apply elem_of_cons in Hin as [Hin|Hin]; [discriminate|]).
      apply elem_of_cons in Hin as [Hin|Hin]; [eapply Hsent; eassumption|].
      exfalso; members Hin.
    + do 4 (apply elem_of_cons in Hin as [Hin|Hin]; [discriminate|]).
      apply elem_of_cons in Hin as [Hin|Hin];
        [eapply Hsent; [apply H2 | eassumption]|].
      exfalso.
      do 4 (apply elem_of_cons in Hin as [Hin|Hin]; [discriminate|]).
      apply elem_of_app in Hin as [Hin|Hin].
      * destruct (updateWhitelist w wallet (selectedCount s)); cbn in Hin;
          members Hin.
      * members Hin.
Qed.

Lemma button_names_the_amount_charged_witness :
  exists shown,
    payButtonLabel (render propsA loadedState)
      = ("Pay " ++ shown ++ "TBD ETH")%string
    /\ parseEther shown = Resolved (selectedCount loadedState * 2 * ether)
    /\ forall to value,
         SendTransaction to value
           ∈ trace (handleReserve propsA loadedState okWorld) ->
         parseEther shown = Resolved value.
Proof.
  apply button_names_the_amount_charged.
  - unfold loadedState. apply reach_step; cbn; auto using reach_init.
  - vm_compute. reflexivity.
Defined.

(** ** The toggle and the other events *)

Lemma apply_effect_toggled (s : State) (ef : Effect) :
  apply_effect (step s Toggled) ef = step (apply_effect s ef) Toggled.
Proof. rewrite !step_toggled. destruct ef; reflexivity. Qed.

Lemma commit_toggled (t : list Effect) (s : State) :
  commit (step s Toggled) t = step (commit s t) Toggled.
Proof.
  unfold commit. revert s.
  induction t as [|ef t IH]; intros s; cbn [fold_left].
  - reflexivity.
  - rewrite apply_effect_toggled. apply IH.
Qed.

(** X18. Toggling the display mode commutes with every other event:
    whether the list is expanded before or after a fetch, a selection or
    a call of the handler, the state is the same, and the handler does
    and shows the same in either display mode. *)
Theorem toggle_commutes (s : State) (ev : Event) :
  step (step s Toggled) ev = step (step s ev) Toggled
  /\ handle (step s Toggled) ev = handle s ev.
Proof.
  assert (handle (step s Toggled) ev = handle s ev) as Hsame
    by (destruct ev; reflexivity).
  split; [|exact Hsame].
  unfold step at 1 3. rewrite Hsame. apply commit_toggled.
Qed.
